(** * GPS navigation: Dijkstra's shortest paths on a road network

    A shallow embedding of [gps_navigation.py] (class [GPSNavigator]) and
    the properties of its shortest-path engine, its road store and its
    derived utilities.

    Conventions of the embedding.
    - Node identifiers are Python integers: [Z].
    - Road lengths and accumulated distances are Python numbers.  The
      engine is given twice.  In the first embedding they are exact
      rationals [Q], compared with [Qeq], and [float('infinity')] is the
      extra value [Inf] of [xdist]; the general theorems are about this
      one, and they speak of the length of a route as the sum of its roads
      taken in driving order, the order in which the program adds them.
      In the second, [Float64], they are binary64 numbers, as in Python:
      sums are rounded and may overflow to [infinity].  It is run on
      concrete maps to show what rounding and overflow change.
    - A Python [dict] is a stdpp [gmap], a [set] a [gset]; the adjacency
      [defaultdict(list)] is a [gmap] read with the default [[]].
    - A call either returns or raises; [outcome] records which.  The two
      [while] loops are run with a step budget, and the budget used by
      [dijkstra] is shown never to be exceeded.
    - Console output ([verbose=True]) and plotting are not part of the
      model; they do not influence any returned value. *)

From Stdlib Require Import PrimFloat.
From Stdlib Require FloatOps SpecFloat.
From Stdlib Require Import QArith Lqa.
From stdpp Require Import gmap strings list fin_maps pretty.

Local Open Scope Z_scope.

(* set_solver and naive_solver clear hypotheses by name as they go *)
#[local] Set Warnings "-clear-no-such-hyp".
(* decimal literals denote the nearest binary64 number, as in Python *)
#[local] Set Warnings "-inexact-float".

(** ** Numbers and their formatting *)

(** A Python float that may be [float('infinity')]. *)
Inductive xdist : Type :=
  | Fin (q : Q)
  | Inf.

(** Python's [x < y] on numbers. *)
Definition Qltb (x y : Q) : bool := negb (Qle_bool y x).

(** [new_distance < distances[neighbor]], the right operand possibly
    infinite. *)
Definition lt_xdist (x : Q) (d : xdist) : bool :=
  match d with
  | Fin y => Qltb x y
  | Inf => true
  end.

(** Equality of reported distances, up to the representation of the
    rational. *)
Definition xdist_eq (a b : xdist) : Prop :=
  match a, b with
  | Fin x, Fin y => (x == y)%Q
  | Inf, Inf => True
  | _, _ => False
  end.

(** The format specification [:.1f]: one digit after the point, the exact
    value rounded to the nearest tenth, ties to the even tenth. *)
Definition round_tenths (q : Q) : Z :=
  let a := Z.abs (Qnum q) * 10 in
  let d := Z.pos (Qden q) in
  let t := a / d in
  let r := a mod d in
  if 2 * r <? d then t
  else if d <? 2 * r then t + 1
  else if Z.even t then t else t + 1.

Definition format_1f (q : Q) : string :=
  let t := round_tenths q in
  (if Qnum q <? 0 then "-" else "") +:+ pretty (t / 10) +:+ "." +:+ pretty (t mod 10).

(** ** Outcomes of a call *)

Inductive exn : Type :=
  | KeyError
  | TypeError
  | ZeroDivisionError.

Inductive outcome (A : Type) : Type :=
  | Ok (a : A)
  | Raise (e : exn)
  | OutOfFuel.
Arguments Ok {A} a.
Arguments Raise {A} e.
Arguments OutOfFuel {A}.

#[global] Instance outcome_ret : MRet outcome := fun A a => Ok a.
#[global] Instance outcome_bind : MBind outcome := fun A B f m =>
  match m with
  | Ok a => f a
  | Raise e => Raise e
  | OutOfFuel => OutOfFuel
  end.

(** ** The navigator object *)

(** [self.graph] and [self.node_names]; [self.coordinates] is read by the
    plotting code only. *)
Record GPSNavigator : Type := {
  graph : gmap Z (list (Z * Q));
  node_names : gmap Z string
}.

(** Reading [self.graph[node]]: a [defaultdict(list)] answers [[]] for a
    key it does not hold (and then stores that empty list, which no later
    read of the same call can observe). *)
Definition neighbours (g : gmap Z (list (Z * Q))) (node : Z) : list (Z * Q) :=
  default [] (g !! node).

(** [self.graph[node].append(entry)]. *)
Definition append_road (g : gmap Z (list (Z * Q))) (node : Z) (entry : Z * Q)
  : gmap Z (list (Z * Q)) :=
  <[node := neighbours g node ++ [entry]]> g.

Definition add_road_graph (g : gmap Z (list (Z * Q))) (from_node to_node : Z)
    (distance : Q) : gmap Z (list (Z * Q)) :=
  append_road (append_road g from_node (to_node, distance)) to_node (from_node, distance).

Definition add_road (nav : GPSNavigator) (from_node to_node : Z) (distance : Q)
  : GPSNavigator :=
  {| graph := add_road_graph (graph nav) from_node to_node distance;
     node_names := node_names nav |}.

(** The loop [for from_node, to_node, distance in connections]. *)
Definition add_roads (nav : GPSNavigator) (connections : list (Z * Z * Q))
  : GPSNavigator :=
  fold_left (fun nav c => add_road nav c.1.1 c.1.2 c.2) connections nav.

Definition locations : list string :=
  [ "Main St & 1st Ave"; "Park Rd & 2nd Ave"; "Oak St & 3rd Ave";
    "Elm St & 1st Ave"; "Pine St & 2nd Ave"; "Maple St & 3rd Ave";
    "Broadway & 1st Ave"; "Center St & 2nd Ave"; "Hill Rd & 3rd Ave";
    "River St & 1st Ave"; "Lake Ave & 2nd Ave"; "Mountain Rd & 3rd Ave" ].

Definition connections : list (Z * Z * Q) :=
  [ (0, 1, 2.1%Q); (1, 2, 1.9%Q); (0, 3, 1.2%Q); (1, 4, 1.4%Q);
    (2, 5, 1.3%Q); (3, 4, 1.9%Q); (4, 5, 2.1%Q); (3, 6, 1.5%Q);
    (4, 7, 1.7%Q); (5, 8, 1.4%Q); (6, 7, 1.8%Q); (7, 8, 2.0%Q);
    (6, 9, 1.6%Q); (7, 10, 1.9%Q); (8, 11, 1.5%Q); (9, 10, 2.2%Q);
    (10, 11, 1.8%Q); (1, 7, 3.2%Q); (4, 10, 3.5%Q); (0, 6, 4.1%Q);
    (2, 8, 3.8%Q); (5, 11, 3.3%Q) ].

(** [for i, (name, coords) in enumerate(locations)]. *)
Definition enumerate_names (names : list string) : gmap Z string :=
  list_to_map (imap (fun i name => (Z.of_nat i, name)) names).

(** [GPSNavigator()]: [__init__] followed by [setup_city_map]. *)
Definition setup_city_map : GPSNavigator :=
  add_roads {| graph := ∅; node_names := enumerate_names locations |} connections.

Definition lookup_name (nav : GPSNavigator) (node : Z) : outcome string :=
  match node_names nav !! node with
  | Some name => Ok name
  | None => Raise KeyError
  end.

(** ** The priority queue

    [heapq] keeps a binary heap of [(distance, node)] tuples.  What the
    program observes of it is that [heappop] removes and returns a least
    tuple; the queue is modelled by the list of its entries. *)

(** Python's [<] on the tuples: the first components decide unless they
    are equal. *)
Definition entry_lt (a b : Q * Z) : bool :=
  if Qeq_bool a.1 b.1 then a.2 <? b.2 else Qltb a.1 b.1.

Definition heappush (heap : list (Q * Z)) (item : Q * Z) : list (Q * Z) :=
  item :: heap.

Fixpoint heappop (heap : list (Q * Z)) : option ((Q * Z) * list (Q * Z)) :=
  match heap with
  | [] => None
  | x :: heap' =>
      match heappop heap' with
      | None => Some (x, [])
      | Some (m, rest) =>
          if entry_lt x m then Some (x, heap') else Some (m, x :: rest)
      end
  end.

(** ** The shortest-path engine *)

Record search_state : Type := {
  distances : gmap Z xdist;
  previous : gmap Z Z;
  visited : gset Z;
  priority_queue : list (Q * Z);
  steps : list string
}.

Record search_result : Type := {
  path : list Z;
  distance : xdist;
  visited_nodes : gset Z;
  trace : list string;
  success : bool
}.

(** One turn of [for neighbor, road_distance in self.graph[current_node]]. *)
Definition relax_road (nav : GPSNavigator) (current_node : Z) (current_distance : Q)
    (road : Z * Q) (st : search_state) : outcome search_state :=
  let '(neighbor, road_distance) := road in
  if decide (neighbor ∈ visited st) then Ok st
  else
    let new_distance := (current_distance + road_distance)%Q in
    match distances st !! neighbor with
    | None => Raise KeyError
    | Some best =>
        if lt_xdist new_distance best then
          name ← lookup_name nav neighbor;
          Ok {| distances := <[neighbor := Fin new_distance]> (distances st);
                previous := <[neighbor := current_node]> (previous st);
                visited := visited st;
                priority_queue := heappush (priority_queue st) (new_distance, neighbor);
                steps := steps st ++
                  ["  → Updated route to " +:+ name +:+ ": " +:+ format_1f new_distance +:+ "km"] |}
        else Ok st
    end.

Fixpoint relax (nav : GPSNavigator) (current_node : Z) (current_distance : Q)
    (roads : list (Z * Q)) (st : search_state) : outcome search_state :=
  match roads with
  | [] => Ok st
  | road :: roads' =>
      st' ← relax_road nav current_node current_distance road st;
      relax nav current_node current_distance roads' st'
  end.

(** [continue] after a stale entry: only the queue has changed. *)
Definition discard (st : search_state) (queue : list (Q * Z)) : search_state :=
  {| distances := distances st; previous := previous st; visited := visited st;
     priority_queue := queue; steps := steps st |}.

(** [visited.add(current_node)] and the line added to [steps]. *)
Definition explore (st : search_state) (current_node : Z) (current_distance : Q)
    (queue : list (Q * Z)) (name : string) : search_state :=
  {| distances := distances st; previous := previous st;
     visited := {[current_node]} ∪ visited st;
     priority_queue := queue;
     steps := steps st ++
       ["Exploring " +:+ name +:+ " (Distance: " +:+ format_1f current_distance +:+ "km)"] |}.

(** The line added to [steps] before the [break]. *)
Definition arrive (st : search_state) (end_name : string) : search_state :=
  {| distances := distances st; previous := previous st; visited := visited st;
     priority_queue := priority_queue st;
     steps := steps st ++ ["✅ Reached destination: " +:+ end_name] |}.

(** The loop [while priority_queue]. *)
Fixpoint search_loop (nav : GPSNavigator) (end_node : Z) (fuel : nat)
    (st : search_state) : outcome search_state :=
  match fuel with
  | O => OutOfFuel
  | S fuel' =>
      match heappop (priority_queue st) with
      | None => Ok st
      | Some ((current_distance, current_node), queue) =>
          if decide (current_node ∈ visited st) then
            search_loop nav end_node fuel' (discard st queue)
          else
            name ← lookup_name nav current_node;
            let st1 := explore st current_node current_distance queue name in
            if decide (current_node = end_node) then
              end_name ← lookup_name nav end_node;
              Ok (arrive st1 end_name)
            else
              st2 ← relax nav current_node current_distance
                      (neighbours (graph nav) current_node) st1;
              search_loop nav end_node fuel' st2
      end
  end.

(** The loop [while current is not None] of the path reconstruction. *)
Fixpoint walk_back (previous : gmap Z Z) (fuel : nat) (current : Z)
    (path : list Z) : outcome (list Z) :=
  match fuel with
  | O => OutOfFuel
  | S fuel' =>
      let path := path ++ [current] in
      match previous !! current with
      | None => Ok path
      | Some before => walk_back previous fuel' before path
      end
  end.

Definition initial_state (nav : GPSNavigator) (start : Z) (start_name end_name : string)
  : search_state :=
  {| distances := <[start := Fin 0]> ((fun _ => Inf) <$> graph nav);
     previous := ∅;
     visited := ∅;
     priority_queue := [(0%Q, start)];
     steps := [ "Starting navigation from " +:+ start_name;
                "Destination: " +:+ end_name;
                "Initializing distances: Start=0km, Others=∞" ] |}.

Definition dijkstra_fuel (fuel : nat) (nav : GPSNavigator) (start end_node : Z)
  : outcome search_result :=
  start_name ← lookup_name nav start;
  end_name ← lookup_name nav end_node;
  st ← search_loop nav end_node fuel (initial_state nav start start_name end_name);
  walked ← walk_back (previous st) (S (size (previous st))) end_node [];
  let path := reverse walked in
  match path with
  | first :: _ =>
      if decide (first = start) then
        match distances st !! end_node with
        | None => Raise KeyError
        | Some d =>
            Ok {| path := path; distance := d; visited_nodes := visited st;
                  trace := steps st; success := true |}
        end
      else
        Ok {| path := []; distance := Inf; visited_nodes := visited st;
              trace := steps st; success := false |}
  | [] =>
      Ok {| path := []; distance := Inf; visited_nodes := visited st;
            trace := steps st; success := false |}
  end.

(** The number of adjacency entries: every push onto the queue is paid for
    by one of them. *)
Definition road_entries (g : gmap Z (list (Z * Q))) : nat :=
  sum_list ((fun kv => length kv.2) <$> map_to_list g).

Definition search_fuel (nav : GPSNavigator) : nat := S (S (road_entries (graph nav))).

Definition dijkstra (nav : GPSNavigator) (start end_node : Z) : outcome search_result :=
  dijkstra_fuel (search_fuel nav) nav start end_node.

(** ** Derived utilities *)

(** [(distance_km / avg_speed_kmh) * 60]; Python's [/] raises
    [ZeroDivisionError] on a zero divisor. *)
Definition calculate_route_time (distance_km avg_speed_kmh : Q) : outcome Q :=
  if Qeq_bool avg_speed_kmh 0 then Raise ZeroDivisionError
  else Ok ((distance_km / avg_speed_kmh) * 60)%Q.

Definition default_avg_speed_kmh : Q := 30.

(** The inner search [for neighbor, road_distance in self.graph[current]]
    with its [break]: the first entry for [next_node], [None] if there is
    none. *)
Fixpoint find_road (roads : list (Z * Q)) (next_node : Z) : option Q :=
  match roads with
  | [] => None
  | (neighbor, road_distance) :: roads' =>
      if decide (neighbor = next_node) then Some road_distance
      else find_road roads' next_node
  end.

(** The loop [for i in range(len(path) - 1)], entered at index [i] with
    [path[i:]] still ahead; [len_path] is [len(path)]. *)
Fixpoint directions_loop (nav : GPSNavigator) (len_path : nat) (i : nat)
    (ahead : list Z) (total_distance : Q) (directions : list string)
  : outcome (list string) :=
  match ahead with
  | current :: ((next_node :: _) as ahead') =>
      match find_road (neighbours (graph nav) current) next_node with
      | None => Raise TypeError
      | Some distance =>
          let total_distance := (total_distance + distance)%Q in
          directions ←
            (if decide (i = 0%nat) then
               name ← lookup_name nav current;
               Ok (directions ++ ["1. Start at " +:+ name])
             else Ok directions);
          next_name ← lookup_name nav next_node;
          let direction_num := (i + 2)%nat in
          let line :=
            if decide (i = (len_path - 2)%nat) then
              pretty direction_num +:+ ". Arrive at " +:+ next_name
                +:+ " (" +:+ format_1f distance +:+ "km)"
            else
              pretty direction_num +:+ ". Continue to " +:+ next_name
                +:+ " (" +:+ format_1f distance +:+ "km)" in
          directions_loop nav len_path (S i) ahead' total_distance (directions ++ [line])
      end
  | _ => Ok directions
  end.

Definition get_turn_by_turn_directions (nav : GPSNavigator) (path : list Z)
  : outcome (list string) :=
  if (length path <? 2)%nat then Ok []
  else directions_loop nav (length path) 0 path 0%Q [].

(** ** Well-formed navigators, routes *)

#[global] Instance Qeq_decision : RelDecision Qeq := Qeq_dec.
#[global] Instance Qle_decision : RelDecision Qle.
Proof.
  intros x y. destruct (Qlt_le_dec y x) as [H|H].
  - right. apply Qlt_not_le, H.
  - left. exact H.
Defined.

(** The membership test every caller makes before a query:
    [node in self.node_names]. *)
Definition known (nav : GPSNavigator) (node : Z) : Prop :=
  is_Some (node_names nav !! node).

(** Every node of the adjacency structure has a display name. *)
Definition named (nav : GPSNavigator) : Prop :=
  map_Forall (fun node _ => known nav node) (graph nav).

(** Every neighbour listed is itself a key of the adjacency structure. *)
Definition closed (g : gmap Z (list (Z * Q))) : Prop :=
  map_Forall (fun _ roads => Forall (fun road : Z * Q => is_Some (g !! road.1)) roads) g.

Definition well_formed (nav : GPSNavigator) : Prop :=
  named nav ∧ closed (graph nav).

Definition nonneg_roads (g : gmap Z (list (Z * Q))) : Prop :=
  map_Forall (fun _ roads => Forall (fun road : Z * Q => (0 <= road.2)%Q) roads) g.

(** Roads joining the same two nodes have the same length. *)
Definition single_roads (g : gmap Z (list (Z * Q))) : Prop :=
  map_Forall (fun _ roads =>
    Forall (fun r1 : Z * Q =>
      Forall (fun r2 : Z * Q => r1.1 = r2.1 → (r1.2 == r2.2)%Q) roads) roads) g.

(** Every road is recorded in both directions. *)
Definition symmetric (g : gmap Z (list (Z * Q))) : Prop :=
  ∀ u v w, (v, w) ∈ neighbours g u → (u, w) ∈ neighbours g v.

#[global] Instance known_dec nav node : Decision (known nav node).
Proof. unfold known. apply _. Defined.
#[global] Instance named_dec nav : Decision (named nav).
Proof. unfold named. apply _. Defined.
#[global] Instance closed_dec g : Decision (closed g).
Proof. unfold closed. apply _. Defined.
#[global] Instance well_formed_dec nav : Decision (well_formed nav).
Proof. unfold well_formed. apply _. Defined.
#[global] Instance nonneg_roads_dec g : Decision (nonneg_roads g).
Proof. unfold nonneg_roads. apply _. Defined.
#[global] Instance single_roads_dec g : Decision (single_roads g).
Proof. unfold single_roads. apply _. Defined.

(** [route g s p v W]: [p] lists the nodes of a walk from [s] to [v] along
    recorded roads, of total length [W] (accumulated left to right). *)
Inductive route (g : gmap Z (list (Z * Q))) (s : Z) : list Z → Z → Q → Prop :=
  | route_start : route g s [s] s 0
  | route_road p x y w W :
      route g s p x W →
      (y, w) ∈ neighbours g x →
      route g s (p ++ [y]) y (W + w).

Definition reachable (g : gmap Z (list (Z * Q))) (s v : Z) : Prop :=
  ∃ p W, route g s p v W.

(** The running sum [total_distance += distance] over the consecutive
    pairs of a path, each length read as [find_road] reads it; [None] when
    some pair has no road. *)
Fixpoint path_distance (g : gmap Z (list (Z * Q))) (ahead : list Z) (total_distance : Q)
  : option Q :=
  match ahead with
  | current :: ((next_node :: _) as ahead') =>
      match find_road (neighbours g current) next_node with
      | None => None
      | Some distance => path_distance g ahead' (total_distance + distance)%Q
      end
  | _ => Some total_distance
  end.

(** The [k]-th line (from 0) that the directions of [path] should hold:
    numbered [k+1]; "Start" for the first node, "Arrive" for the last,
    "Continue" in between, the last two with the length of the road
    taken from the previous node. *)
Definition instruction (nav : GPSNavigator) (path : list Z) (k : nat) : string :=
  let name := default "" (path !! k ≫= fun node => node_names nav !! node) in
  match k with
  | O => "1. Start at " +:+ name
  | S j =>
      let length_km :=
        default 0%Q (path !! j ≫= fun current =>
                     path !! k ≫= fun next_node =>
                     find_road (neighbours (graph nav) current) next_node) in
      pretty (S k) +:+ (if decide (S k = length path) then ". Arrive at " else ". Continue to ")
        +:+ name +:+ " (" +:+ format_1f length_km +:+ "km)"
  end.

(** A path whose consecutive nodes are named and joined by a road. *)
Fixpoint drivable (nav : GPSNavigator) (path : list Z) : Prop :=
  match path with
  | current :: ((next_node :: _) as path') =>
      known nav current ∧ known nav next_node ∧
      is_Some (find_road (neighbours (graph nav) current) next_node) ∧
      drivable nav path'
  | _ => True
  end.

(** Every named location has an entry in the adjacency structure. *)
Definition roaded (nav : GPSNavigator) : Prop :=
  map_Forall (fun node _ => is_Some (graph nav !! node)) (node_names nav).

#[global] Instance roaded_dec nav : Decision (roaded nav).
Proof. unfold roaded. apply _. Defined.

(** ** The invariants of the search *)

(** [back_chain previous v l]: [l] is what the path reconstruction collects
    when it starts at [v], i.e. [v], [previous[v]], ... down to the first
    node without a predecessor. *)
Inductive back_chain (previous : gmap Z Z) : Z → list Z → Prop :=
  | back_root v : previous !! v = None → back_chain previous v [v]
  | back_link v u l :
      previous !! v = Some u →
      back_chain previous u l →
      back_chain previous v (v :: l).

(** What holds of the search state from the moment the start node has
    been taken off the queue. *)
Record search_inv (g : gmap Z (list (Z * Q))) (s : Z) (st : search_state) : Prop := {
  inv_start_visited : s ∈ visited st;
  inv_start_distance : distances st !! s = Some (Fin 0);
  inv_start_previous : previous st !! s = None;
  inv_domain : ∀ v, is_Some (g !! v) → is_Some (distances st !! v);
  inv_links : ∀ v u, previous st !! v = Some u →
    u ∈ visited st ∧
    ∃ w du dv, (v, w) ∈ neighbours g u ∧
      distances st !! u = Some (Fin du) ∧
      distances st !! v = Some (Fin dv) ∧ (dv == du + w)%Q;
  inv_queue : ∀ d v, (d, v) ∈ priority_queue st → v ∉ visited st →
    is_Some (previous st !! v) ∧
    ∃ dv, distances st !! v = Some (Fin dv) ∧ (dv <= d)%Q;
  inv_frontier : ∀ v dv, v ∉ visited st → distances st !! v = Some (Fin dv) →
    ∃ d, (d, v) ∈ priority_queue st ∧ (d == dv)%Q;
  inv_chains : ∀ v, v ∈ visited st →
    ∃ l, back_chain (previous st) v l ∧ last l = Some s ∧ NoDup l ∧
         ∀ x, x ∈ l → x ∈ visited st
}.

(** What relaxing roads may change: the visited set stays, the labels of
    visited nodes stay, and any finite label only gets smaller. *)
Definition extends (st st' : search_state) : Prop :=
  visited st' = visited st ∧
  (∀ x, x ∈ visited st → distances st' !! x = distances st !! x) ∧
  (∀ x dx, distances st !! x = Some (Fin dx) →
     ∃ dx', distances st' !! x = Some (Fin dx') ∧ (dx' <= dx)%Q).

(** The roads [roads] out of [u] have been relaxed. *)
Definition relaxed_from (st : search_state) (u : Z) (roads : list (Z * Q)) : Prop :=
  ∀ v w, (v, w) ∈ roads →
    v ∈ visited st ∨
    ∃ du dv, distances st !! u = Some (Fin du) ∧
             distances st !! v = Some (Fin dv) ∧ (dv <= du + w)%Q.

(** All roads out of every visited node have been relaxed, those of the
    node [current] under exploration possibly excepted. *)
Definition relaxed_except (g : gmap Z (list (Z * Q))) (st : search_state)
    (current : option Z) : Prop :=
  ∀ u, u ∈ visited st → Some u ≠ current → relaxed_from st u (neighbours g u).

(** The label of a visited node is a lower bound on every route to it. *)
Definition optimal (g : gmap Z (list (Z * Q))) (s : Z) (st : search_state) : Prop :=
  ∀ v p W, v ∈ visited st → route g s p v W →
    ∃ dv, distances st !! v = Some (Fin dv) ∧ (dv <= W)%Q.

(** The two kinds of result: a route was found, of the reported length and
    without a repeated node, and (roads being of non-negative length) no
    route is shorter; or there is no route at all. *)
Definition found (nav : GPSNavigator) (s e : Z) (r : search_result) : Prop :=
  success r = true ∧ NoDup (path r) ∧
  ∃ W d, route (graph nav) s (path r) e W ∧ distance r = Fin d ∧ (d == W)%Q ∧
    (nonneg_roads (graph nav) →
     ∀ p' W', route (graph nav) s p' e W' → (d <= W')%Q).

Definition no_route (nav : GPSNavigator) (s e : Z) (r : search_result) : Prop :=
  success r = false ∧ path r = [] ∧ distance r = Inf ∧ ¬ reachable (graph nav) s e.

(** Adjacency entries of the nodes not visited yet, and the variant of the
    main loop. *)
Definition pending (g : gmap Z (list (Z * Q))) (seen : gset Z) : nat :=
  sum_list ((fun kv : Z * list (Z * Q) =>
               if decide (kv.1 ∈ seen) then 0%nat else length kv.2) <$> map_to_list g).

Definition potential (g : gmap Z (list (Z * Q))) (st : search_state) : nat :=
  (length (priority_queue st) + pending g (visited st))%nat.

(** Nothing waits in the queue with a distance below the label of a
    visited node. *)
Definition settled (st : search_state) : Prop :=
  ∀ u du d v, u ∈ visited st → distances st !! u = Some (Fin du) →
    (d, v) ∈ priority_queue st → (du <= d)%Q.

(** ** Small road maps used as examples *)

Definition plain_names (n : nat) : gmap Z string :=
  enumerate_names ((fun i => "node " +:+ pretty i) <$> seq 0 n).

(** Nodes 0, 1, 2 with roads (0,1,2.1), (1,2,1.9), (0,2,5.0). *)
Definition triangle_map : GPSNavigator :=
  add_roads {| graph := ∅; node_names := plain_names 3 |}
    [ (0, 1, 2.1%Q); (1, 2, 1.9%Q); (0, 2, 5.0%Q) ].

(** Two roads of different lengths between the same two nodes. *)
Definition parallel_map : GPSNavigator :=
  add_roads {| graph := ∅; node_names := plain_names 2 |}
    [ (0, 1, 5%Q); (0, 1, 2%Q) ].


(** Two separate pairs of nodes. *)
Definition islands_map : GPSNavigator :=
  add_roads {| graph := ∅; node_names := plain_names 4 |}
    [ (0, 1, 1%Q); (2, 3, 1%Q) ].

(** [islands_map] after [add_road(0, 9, 1)]: node 9 has a road and no
    name. *)
Definition detour_map : GPSNavigator := add_road islands_map 0 9 1.

(** ** Callers of the engine

    [print_route_summary] (gps_navigation.py) and the methods of
    [AdvancedGPSAnalyzer] (examples/advanced_demo.py). *)

(** [sum(len(neighbors) for neighbors in self.graph.values()) // 2], the
    number of road segments reported by [analyze_network_connectivity]. *)
Definition total_connections (nav : GPSNavigator) : nat :=
  (road_entries (graph nav) / 2)%nat.

(** The loop [for i, (n, d) in enumerate(graph[node]): if n == neighbor:
    graph[node][i] = (n, new_dist)] of [simulate_traffic_scenarios]. *)
Definition retime (roads : list (Z * Q)) (target : Z) (new_dist : Q) : list (Z * Q) :=
  (fun road : Z * Q => if decide (road.1 = target) then (road.1, new_dist) else road)
    <$> roads.

(** One affected edge: the new length is the sampled length times the
    multiplier, written into both adjacency lists ([graph] being a
    [defaultdict], reading a missing key stores the empty list). *)
Definition slow_road (nav : GPSNavigator) (node neighbor : Z) (original_dist : Q)
    (multiplier : Q) : GPSNavigator :=
  let new_dist := (original_dist * multiplier)%Q in
  let g1 := <[node := retime (neighbours (graph nav) node) neighbor new_dist]> (graph nav) in
  {| graph := <[neighbor := retime (neighbours g1 neighbor) node new_dist]> g1;
     node_names := node_names nav |}.

(** [if scenario['multiplier'] != 1.0: ... for node, neighbor,
    original_dist in affected: ...]; [affected] is the sample drawn from
    the edges of the unmodified map. *)
Definition apply_traffic (nav : GPSNavigator) (multiplier : Q)
    (affected : list (Z * Z * Q)) : GPSNavigator :=
  if Qeq_bool multiplier 1 then nav
  else fold_left (fun nav e => slow_road nav e.1.1 e.1.2 e.2 multiplier) affected nav.

(** Every road of [g] runs beside a road of [g0] that is no longer. *)
Definition dominates (g0 g : gmap Z (list (Z * Q))) : Prop :=
  ∀ u v w, (v, w) ∈ neighbours g u → ∃ w0, (v, w0) ∈ neighbours g0 u ∧ (w0 <= w)%Q.

(** What a map [nav] on which roads have been slowed down keeps of the
    map [nav0] it was made from. *)
Definition slowed (nav0 nav : GPSNavigator) : Prop :=
  dominates (graph nav0) (graph nav) ∧
  (∀ u v, (∃ w, (v, w) ∈ neighbours (graph nav0) u) ↔
          (∃ w, (v, w) ∈ neighbours (graph nav) u)) ∧
  (∀ n, is_Some (graph nav !! n) ↔ is_Some (graph nav0 !! n)) ∧
  node_names nav = node_names nav0 ∧
  symmetric (graph nav).

(** The format specification [:.0f]: the exact value rounded to the
    nearest integer, ties to the even one. *)
Definition round_units (q : Q) : Z :=
  let a := Z.abs (Qnum q) in
  let d := Z.pos (Qden q) in
  let t := a / d in
  let r := a mod d in
  if 2 * r <? d then t
  else if d <? 2 * r then t + 1
  else if Z.even t then t else t + 1.

Definition format_0f (q : Q) : string :=
  (if Qnum q <? 0 then "-" else "") +:+ pretty (round_units q).

(** A distance that may be [float('infinity')], formatted. *)
Definition format_xdist (format : Q → string) (d : xdist) : string :=
  match d with
  | Fin q => format q
  | Inf => "inf"
  end.

(** [self.calculate_route_time(result['distance'])], with the default
    speed; an infinite distance gives an infinite time. *)
Definition route_time (d : xdist) : outcome xdist :=
  match d with
  | Fin q => time ← calculate_route_time q default_avg_speed_kmh; Ok (Fin time)
  | Inf => Ok Inf
  end.

(** [[self.node_names[node] for node in result['path']]]. *)
Fixpoint lookup_names (nav : GPSNavigator) (path : list Z) : outcome (list string) :=
  match path with
  | [] => Ok []
  | node :: path' =>
      name ← lookup_name nav node;
      names ← lookup_names nav path';
      Ok (name :: names)
  end.

Definition newline : string := String (Ascii.ascii_of_nat 10) EmptyString.

(** [print_route_summary]: the arguments of its [print] calls, in order,
    when it returns; what was printed before an exception is not
    recorded. *)
Definition print_route_summary (nav : GPSNavigator) (result : search_result)
    (start end_node : Z) : outcome (list string) :=
  if negb (success result) then
    start_name ← lookup_name nav start;
    end_name ← lookup_name nav end_node;
    Ok [newline +:+ "❌ No route found from " +:+ start_name +:+ " to " +:+ end_name]
  else
    start_name ← lookup_name nav start;
    end_name ← lookup_name nav end_node;
    time ← route_time (distance result);
    route_names ← lookup_names nav (path result);
    directions ← get_turn_by_turn_directions nav (path result);
    Ok ([ newline +:+ "🎯 ROUTE FOUND!";
          "============================================================";
          "From: " +:+ start_name;
          "To: " +:+ end_name;
          "Distance: " +:+ format_xdist format_1f (distance result) +:+ " km";
          "Estimated Time: " +:+ format_xdist format_0f time +:+ " minutes";
          "Intersections Explored: " +:+ pretty (size (visited_nodes result));
          newline +:+ "🛣️  ROUTE OVERVIEW:";
          String.concat " → " route_names;
          newline +:+ "🧭 TURN-BY-TURN DIRECTIONS:" ]
        ++ directions).

(** ** The engine on binary64 numbers

    The same code, with the road lengths and the accumulated distances
    held as IEEE 754 binary64 numbers, the [float] of Python: every sum is
    rounded to the nearest representable number and a sum beyond the
    largest one is [infinity].  Names, the adjacency structure, the queue
    discipline and the path reconstruction are those of the exact engine
    above. *)

(** The format specification [:.1f] on a binary64 number: its exact value
    rounded to the nearest tenth, ties to the even tenth. *)
Definition format_float_1f (x : float) : string :=
  match FloatOps.Prim2SF x with
  | SpecFloat.S754_zero s => if s then "-0.0" else "0.0"
  | SpecFloat.S754_infinity s => if s then "-inf" else "inf"
  | SpecFloat.S754_nan => "nan"
  | SpecFloat.S754_finite s m e =>
      let n := if s then Z.neg m else Z.pos m in
      format_1f
        (match e with
         | Z.neg k => Qmake n (Pos.shiftl 1 (N.pos k))
         | _ => Qmake (Z.shiftl n e) 1
         end)
  end.

Module Float64.

Record GPSNavigator : Type := {
  graph : gmap Z (list (Z * float));
  node_names : gmap Z string
}.

Definition neighbours (g : gmap Z (list (Z * float))) (node : Z) : list (Z * float) :=
  default [] (g !! node).

Definition append_road (g : gmap Z (list (Z * float))) (node : Z) (entry : Z * float)
  : gmap Z (list (Z * float)) :=
  <[node := neighbours g node ++ [entry]]> g.

Definition add_road (nav : GPSNavigator) (from_node to_node : Z) (distance : float)
  : GPSNavigator :=
  {| graph := append_road (append_road (graph nav) from_node (to_node, distance))
                to_node (from_node, distance);
     node_names := node_names nav |}.

Definition add_roads (nav : GPSNavigator) (connections : list (Z * Z * float))
  : GPSNavigator :=
  fold_left (fun nav c => add_road nav c.1.1 c.1.2 c.2) connections nav.

Definition connections : list (Z * Z * float) :=
  [ (0, 1, 2.1%float); (1, 2, 1.9%float); (0, 3, 1.2%float); (1, 4, 1.4%float);
    (2, 5, 1.3%float); (3, 4, 1.9%float); (4, 5, 2.1%float); (3, 6, 1.5%float);
    (4, 7, 1.7%float); (5, 8, 1.4%float); (6, 7, 1.8%float); (7, 8, 2.0%float);
    (6, 9, 1.6%float); (7, 10, 1.9%float); (8, 11, 1.5%float); (9, 10, 2.2%float);
    (10, 11, 1.8%float); (1, 7, 3.2%float); (4, 10, 3.5%float); (0, 6, 4.1%float);
    (2, 8, 3.8%float); (5, 11, 3.3%float) ].

Definition setup_city_map : GPSNavigator :=
  add_roads {| graph := ∅; node_names := enumerate_names locations |} connections.

Definition lookup_name (nav : GPSNavigator) (node : Z) : outcome string :=
  match node_names nav !! node with
  | Some name => Ok name
  | None => Raise KeyError
  end.

(** Python's [<] on the tuples [(distance, node)]. *)
Definition entry_lt (a b : float * Z) : bool :=
  if PrimFloat.eqb a.1 b.1 then a.2 <? b.2 else PrimFloat.ltb a.1 b.1.

Definition heappush (heap : list (float * Z)) (item : float * Z) : list (float * Z) :=
  item :: heap.

Fixpoint heappop (heap : list (float * Z)) : option ((float * Z) * list (float * Z)) :=
  match heap with
  | [] => None
  | x :: heap' =>
      match heappop heap' with
      | None => Some (x, [])
      | Some (m, rest) =>
          if entry_lt x m then Some (x, heap') else Some (m, x :: rest)
      end
  end.

Record search_state : Type := {
  distances : gmap Z float;
  previous : gmap Z Z;
  visited : gset Z;
  priority_queue : list (float * Z);
  steps : list string
}.

Record search_result : Type := {
  path : list Z;
  distance : float;
  visited_nodes : gset Z;
  trace : list string;
  success : bool
}.

Definition relax_road (nav : GPSNavigator) (current_node : Z) (current_distance : float)
    (road : Z * float) (st : search_state) : outcome search_state :=
  let '(neighbor, road_distance) := road in
  if decide (neighbor ∈ visited st) then Ok st
  else
    let new_distance := PrimFloat.add current_distance road_distance in
    match distances st !! neighbor with
    | None => Raise KeyError
    | Some best =>
        if PrimFloat.ltb new_distance best then
          name ← lookup_name nav neighbor;
          Ok {| distances := <[neighbor := new_distance]> (distances st);
                previous := <[neighbor := current_node]> (previous st);
                visited := visited st;
                priority_queue := heappush (priority_queue st) (new_distance, neighbor);
                steps := steps st ++
                  ["  → Updated route to " +:+ name +:+ ": " +:+ format_float_1f new_distance +:+ "km"] |}
        else Ok st
    end.

Fixpoint relax (nav : GPSNavigator) (current_node : Z) (current_distance : float)
    (roads : list (Z * float)) (st : search_state) : outcome search_state :=
  match roads with
  | [] => Ok st
  | road :: roads' =>
      st' ← relax_road nav current_node current_distance road st;
      relax nav current_node current_distance roads' st'
  end.

Definition discard (st : search_state) (queue : list (float * Z)) : search_state :=
  {| distances := distances st; previous := previous st; visited := visited st;
     priority_queue := queue; steps := steps st |}.

Definition explore (st : search_state) (current_node : Z) (current_distance : float)
    (queue : list (float * Z)) (name : string) : search_state :=
  {| distances := distances st; previous := previous st;
     visited := {[current_node]} ∪ visited st;
     priority_queue := queue;
     steps := steps st ++
       ["Exploring " +:+ name +:+ " (Distance: " +:+ format_float_1f current_distance +:+ "km)"] |}.

Definition arrive (st : search_state) (end_name : string) : search_state :=
  {| distances := distances st; previous := previous st; visited := visited st;
     priority_queue := priority_queue st;
     steps := steps st ++ ["✅ Reached destination: " +:+ end_name] |}.

Fixpoint search_loop (nav : GPSNavigator) (end_node : Z) (fuel : nat)
    (st : search_state) : outcome search_state :=
  match fuel with
  | O => OutOfFuel
  | S fuel' =>
      match heappop (priority_queue st) with
      | None => Ok st
      | Some ((current_distance, current_node), queue) =>
          if decide (current_node ∈ visited st) then
            search_loop nav end_node fuel' (discard st queue)
          else
            name ← lookup_name nav current_node;
            let st1 := explore st current_node current_distance queue name in
            if decide (current_node = end_node) then
              end_name ← lookup_name nav end_node;
              Ok (arrive st1 end_name)
            else
              st2 ← relax nav current_node current_distance
                      (neighbours (graph nav) current_node) st1;
              search_loop nav end_node fuel' st2
      end
  end.

Definition initial_state (nav : GPSNavigator) (start : Z) (start_name end_name : string)
  : search_state :=
  {| distances := <[start := PrimFloat.zero]> ((fun _ => PrimFloat.infinity) <$> graph nav);
     previous := ∅;
     visited := ∅;
     priority_queue := [(PrimFloat.zero, start)];
     steps := [ "Starting navigation from " +:+ start_name;
                "Destination: " +:+ end_name;
                "Initializing distances: Start=0km, Others=∞" ] |}.

Definition dijkstra_fuel (fuel : nat) (nav : GPSNavigator) (start end_node : Z)
  : outcome search_result :=
  start_name ← lookup_name nav start;
  end_name ← lookup_name nav end_node;
  st ← search_loop nav end_node fuel (initial_state nav start start_name end_name);
  walked ← walk_back (previous st) (S (size (previous st))) end_node [];
  let path := reverse walked in
  match path with
  | first :: _ =>
      if decide (first = start) then
        match distances st !! end_node with
        | None => Raise KeyError
        | Some d =>
            Ok {| path := path; distance := d; visited_nodes := visited st;
                  trace := steps st; success := true |}
        end
      else
        Ok {| path := []; distance := PrimFloat.infinity; visited_nodes := visited st;
              trace := steps st; success := false |}
  | [] =>
      Ok {| path := []; distance := PrimFloat.infinity; visited_nodes := visited st;
            trace := steps st; success := false |}
  end.

Definition road_entries (g : gmap Z (list (Z * float))) : nat :=
  sum_list ((fun kv => length kv.2) <$> map_to_list g).

Definition search_fuel (nav : GPSNavigator) : nat := S (S (road_entries (graph nav))).

Definition dijkstra (nav : GPSNavigator) (start end_node : Z) : outcome search_result :=
  dijkstra_fuel (search_fuel nav) nav start end_node.

(** Lengths that are numbers from zero upwards, [infinity] excepted. *)
Definition nonneg_roads (connections : list (Z * Z * float)) : bool :=
  forallb (fun c : Z * Z * float =>
             PrimFloat.leb PrimFloat.zero c.2 && PrimFloat.ltb c.2 PrimFloat.infinity)
          connections.



End Float64.

(** * Properties *)

(** ** Comparisons and the queue *)

Lemma Qltb_lt x y : Qltb x y = true ↔ (x < y)%Q.
Proof.
  unfold Qltb. rewrite negb_true_iff, <- not_true_iff_false, Qle_bool_iff.
  split; [apply Qnot_le_lt | apply Qlt_not_le].
Qed.

Lemma Qltb_ge x y : Qltb x y = false ↔ (y <= x)%Q.
Proof.
  unfold Qltb. rewrite negb_false_iff. apply Qle_bool_iff.
Qed.

Lemma entry_lt_spec a b :
  entry_lt a b = true ↔ (a.1 < b.1)%Q ∨ ((a.1 == b.1)%Q ∧ a.2 < b.2).
Proof.
  unfold entry_lt. destruct (Qeq_bool a.1 b.1) eqn:E.
  - apply Qeq_bool_iff in E. rewrite Z.ltb_lt. split; [auto|].
    intros [H|[_ H]]; [lra | exact H].
  - apply Qeq_bool_neq in E. rewrite Qltb_lt. split; [auto|].
    intros [H|[H _]]; [exact H | contradiction].
Qed.

Lemma entry_lt_irrefl a : entry_lt a a = false.
Proof.
  apply not_true_iff_false. rewrite entry_lt_spec. intros [H|[_ H]]; [lra | lia].
Qed.

Lemma entry_lt_trans a b c :
  entry_lt a b = true → entry_lt b c = true → entry_lt a c = true.
Proof.
  rewrite !entry_lt_spec. intros [H1|[H1 H1']] [H2|[H2 H2']].
  - left; lra.
  - left; lra.
  - left; lra.
  - right; split; [lra | lia].
Qed.

Lemma heappop_None heap : heappop heap = None → heap = [].
Proof.
  destruct heap as [|x heap]; [done|]. simpl.
  destruct (heappop heap) as [[m rest]|]; [|done].
  destruct (entry_lt x m); done.
Qed.

Lemma heappop_Some heap m rest :
  heappop heap = Some (m, rest) →
  heap ≡ₚ m :: rest ∧ ∀ x, x ∈ heap → entry_lt x m = false.
Proof.
  revert m rest. induction heap as [|x heap IH]; intros m rest; [done|]. simpl.
  destruct (heappop heap) as [[m' rest']|] eqn:E.
  - destruct (IH _ _ eq_refl) as [Hperm Hmin].
    destruct (entry_lt x m') eqn:Hx; intros [= <- <-].
    + split; [done|]. intros y [->|Hy]%elem_of_cons; [apply entry_lt_irrefl|].
      apply not_true_iff_false. intros Hyx.
      specialize (Hmin y Hy). rewrite (entry_lt_trans _ _ _ Hyx Hx) in Hmin. done.
    + split.
      * rewrite Hperm. apply Permutation_swap.
      * intros y [->|Hy]%elem_of_cons; [exact Hx | auto].
  - apply heappop_None in E as ->. intros [= <- <-]. split; [done|].
    intros y ->%list_elem_of_singleton. apply entry_lt_irrefl.
Qed.

(** The tuple handed out carries the least distance of the queue. *)
Lemma heappop_least heap d c rest d' v :
  heappop heap = Some ((d, c), rest) → (d', v) ∈ heap → (d <= d')%Q.
Proof.
  intros [_ Hmin]%heappop_Some Hin. specialize (Hmin _ Hin).
  apply not_true_iff_false in Hmin. rewrite entry_lt_spec in Hmin. simpl in Hmin.
  destruct (Qlt_le_dec d' d) as [H|H]; [|exact H]. exfalso. auto.
Qed.

Lemma heappop_elem heap m rest x :
  heappop heap = Some (m, rest) → x ∈ heap ↔ x = m ∨ x ∈ rest.
Proof.
  intros [Hperm _]%heappop_Some. rewrite Hperm. apply elem_of_cons.
Qed.

Lemma heappop_length heap m rest :
  heappop heap = Some (m, rest) → length heap = S (length rest).
Proof.
  intros [Hperm _]%heappop_Some. rewrite Hperm. done.
Qed.

(** ** Outcomes *)

Lemma bind_Ok {A B} (m : outcome A) (f : A → outcome B) b :
  m ≫= f = Ok b → ∃ a, m = Ok a ∧ f a = Ok b.
Proof. destruct m; [eauto | done | done]. Qed.

Lemma lookup_name_Ok nav node name :
  lookup_name nav node = Ok name ↔ node_names nav !! node = Some name.
Proof.
  unfold lookup_name. destruct (node_names nav !! node); split; congruence.
Qed.

Lemma lookup_name_known nav node :
  known nav node → ∃ name, lookup_name nav node = Ok name.
Proof.
  intros [name H]. exists name. by apply lookup_name_Ok.
Qed.

Lemma lookup_name_unknown nav node :
  ¬ known nav node → lookup_name nav node = Raise KeyError.
Proof.
  unfold known, lookup_name. destruct (node_names nav !! node); [|done].
  intros []. by eexists.
Qed.

(** ** The road store *)

Lemma neighbours_append_road g node entry n :
  neighbours (append_road g node entry) n =
  neighbours g n ++ (if decide (n = node) then [entry] else []).
Proof.
  unfold append_road, neighbours at 1. destruct (decide (n = node)) as [->|Hn].
  - by rewrite lookup_insert_eq.
  - rewrite lookup_insert_ne by done. by rewrite app_nil_r.
Qed.

Lemma neighbours_add_road nav a b w n :
  neighbours (graph (add_road nav a b w)) n =
  neighbours (graph nav) n
    ++ (if decide (n = a) then [(b, w)] else [])
    ++ (if decide (n = b) then [(a, w)] else []).
Proof.
  simpl. unfold add_road_graph. rewrite !neighbours_append_road. by rewrite <- app_assoc.
Qed.

Lemma elem_of_neighbours g u road :
  road ∈ neighbours g u ↔ ∃ roads, g !! u = Some roads ∧ road ∈ roads.
Proof.
  unfold neighbours. destruct (g !! u) as [roads|]; simpl.
  - split; [eauto|]. by intros (? & [= <-] & ?).
  - split; [by intros ?%elem_of_nil | by intros (? & ? & ?)].
Qed.

Lemma closed_neighbour g u v w :
  closed g → (v, w) ∈ neighbours g u → is_Some (g !! v).
Proof.
  intros Hc (roads & Hu & Hin)%elem_of_neighbours.
  specialize (Hc _ _ Hu). simpl in Hc. rewrite Forall_forall in Hc.
  apply (Hc _ Hin).
Qed.

Lemma nonneg_road g u v w :
  nonneg_roads g → (v, w) ∈ neighbours g u → (0 <= w)%Q.
Proof.
  intros Hc (roads & Hu & Hin)%elem_of_neighbours.
  specialize (Hc _ _ Hu). simpl in Hc. rewrite Forall_forall in Hc.
  apply (Hc _ Hin).
Qed.

Lemma single_road g u v w1 w2 :
  single_roads g → (v, w1) ∈ neighbours g u → (v, w2) ∈ neighbours g u → (w1 == w2)%Q.
Proof.
  intros Hc (roads & Hu & Hin1)%elem_of_neighbours (roads' & Hu' & Hin2)%elem_of_neighbours.
  rewrite Hu in Hu'. injection Hu' as <-.
  specialize (Hc _ _ Hu). simpl in Hc. rewrite Forall_forall in Hc.
  specialize (Hc _ Hin1). rewrite Forall_forall in Hc. by apply (Hc _ Hin2).
Qed.

Lemma named_known nav node :
  named nav → is_Some (graph nav !! node) → known nav node.
Proof. intros Hn [roads H]. apply (Hn _ _ H). Qed.

(** ** Routes *)

Lemma route_nonneg g s p v W :
  nonneg_roads g → route g s p v W → (0 <= W)%Q.
Proof.
  intros Hg. induction 1 as [|p x y w W _ IH Hroad]; [lra|].
  pose proof (nonneg_road _ _ _ _ Hg Hroad). lra.
Qed.

Lemma route_ends g s p v W :
  route g s p v W → head p = Some s ∧ last p = Some v.
Proof.
  induction 1 as [|p x y w W _ [IH1 IH2] _]; [done|]. split.
  - destruct p; [done|]. exact IH1.
  - apply last_snoc.
Qed.

(** A road put in front of a route. *)
Lemma route_prepend g s x p v W w :
  (x, w) ∈ neighbours g s → route g x p v W →
  ∃ W', route g s (s :: p) v W' ∧ (W' == w + W)%Q.
Proof.
  intros Hroad. induction 1 as [|p y z w' W _ (W' & IH & HW) Hroad'].
  - exists (0 + w)%Q. split; [|lra].
    apply (route_road g s [s] s x w 0); [constructor | done].
  - exists (W' + w')%Q. split; [|lra].
    apply (route_road g s (s :: p) y z w' W'); done.
Qed.

(** On a symmetric map a route can be driven backwards, for the same
    length. *)
Lemma route_reverse g s p v W :
  symmetric g → route g s p v W →
  ∃ W', route g v (reverse p) s W' ∧ (W' == W)%Q.
Proof.
  intros Hsym. induction 1 as [|p x y w W _ (W' & IH & HW) Hroad].
  - exists 0%Q. split; [constructor | lra].
  - rewrite reverse_snoc.
    destruct (route_prepend g y x (reverse p) s W' w) as (W'' & Hr & HW'');
      [by apply Hsym | done |].
    exists W''. split; [done | lra].
Qed.

(** The running sum along a route, when no two roads of different length
    join the same nodes. *)
Lemma find_road_elem roads v w :
  find_road roads v = Some w → (v, w) ∈ roads.
Proof.
  induction roads as [|[n d] roads IH]; [done|]. simpl.
  destruct (decide (n = v)) as [->|]; [intros [= ->]; left | right; auto].
Qed.

Lemma find_road_is_Some roads v w :
  (v, w) ∈ roads → is_Some (find_road roads v).
Proof.
  induction roads as [|[n d] roads IH]; [by intros ?%elem_of_nil|]. simpl.
  intros Hin. destruct (decide (n = v)); [by eexists|].
  apply elem_of_cons in Hin as [[= -> ->]|Hin]; [done | auto].
Qed.

Lemma path_distance_snoc g p x y acc t d :
  path_distance g (p ++ [x]) acc = Some t →
  find_road (neighbours g x) y = Some d →
  path_distance g (p ++ [x; y]) acc = Some (t + d)%Q.
Proof.
  revert acc. induction p as [|a p IH]; intros acc; simpl.
  - intros [= ->] ->. done.
  - destruct p as [|b p]; simpl in *.
    + destruct (find_road (neighbours g a) x); [|done].
      intros [= <-] ->. done.
    + destruct (find_road (neighbours g a) b); [|done]. apply IH.
Qed.

Lemma route_path_distance g s p v W :
  single_roads g → route g s p v W →
  ∃ t, path_distance g p 0 = Some t ∧ (t == W)%Q.
Proof.
  intros Hg. induction 1 as [|p x y w W Hr (t & IH & Ht) Hroad].
  - exists 0%Q. done.
  - destruct (find_road_is_Some _ _ _ Hroad) as [d Hd].
    pose proof (single_road _ _ _ _ _ Hg (find_road_elem _ _ _ Hd) Hroad) as Hdw.
    destruct (route_ends _ _ _ _ _ Hr) as [_ Hlast].
    apply last_Some in Hlast as [p' ->].
    exists (t + d)%Q. split; [|lra].
    rewrite <- app_assoc. simpl. by apply path_distance_snoc.
Qed.

(** ** Predecessor chains *)

Lemma back_chain_head previous v l : back_chain previous v l → head l = Some v.
Proof. by destruct 1. Qed.

(** A chain is not affected by a change of predecessor outside of it. *)
Lemma back_chain_insert previous v l n c :
  back_chain previous v l → n ∉ l → back_chain (<[n := c]> previous) v l.
Proof.
  induction 1 as [v Hv|v u l Hv _ IH]; intros Hn.
  - apply back_root. rewrite lookup_insert_ne; [done|]. set_solver.
  - apply back_link with u.
    + rewrite lookup_insert_ne; [done|]. set_solver.
    + apply IH. set_solver.
Qed.

Lemma back_chain_unique previous v l l' :
  back_chain previous v l → back_chain previous v l' → l = l'.
Proof.
  intros H. revert l'. induction H as [v Hv|v u l Hv _ IH]; intros l' H'.
  - destruct H'; [done | congruence].
  - destruct H' as [|v u' l' Hv' H']; [congruence|].
    assert (u' = u) as -> by congruence. f_equal. by apply IH.
Qed.

(** The reconstruction loop follows the chain. *)
Lemma walk_back_chain previous fuel v l acc :
  back_chain previous v l → (length l ≤ fuel)%nat →
  walk_back previous fuel v acc = Ok (acc ++ l).
Proof.
  intros H. revert fuel acc. induction H as [v Hv|v u l Hv _ IH]; intros fuel acc Hf.
  - destruct fuel; simpl in *; [lia|]. by rewrite Hv.
  - destruct fuel; simpl in *; [lia|]. rewrite Hv.
    rewrite IH by lia. by rewrite <- app_assoc.
Qed.

Lemma walk_back_not_Raise previous fuel v acc e :
  walk_back previous fuel v acc ≠ Raise e.
Proof.
  revert v acc. induction fuel as [|fuel IH]; intros v acc; simpl; [done|].
  destruct (previous !! v); [apply IH | done].
Qed.

(** Whatever the reconstruction returns is a chain. *)
Lemma walk_back_Ok previous fuel v acc walked :
  walk_back previous fuel v acc = Ok walked →
  ∃ l, back_chain previous v l ∧ walked = acc ++ l.
Proof.
  revert v acc. induction fuel as [|fuel IH]; intros v acc; simpl; [done|].
  destruct (previous !! v) as [u|] eqn:Hv.
  - intros (l & Hl & ->)%IH. exists (v :: l). split.
    + by apply back_link with u.
    + by rewrite <- app_assoc.
  - intros [= <-]. exists [v]. split; [by apply back_root | done].
Qed.

(** The nodes of a chain, its root excepted, are keys of the predecessor
    map; so a chain without repetition is no longer than that map plus
    one. *)
Lemma back_chain_length previous v l :
  back_chain previous v l → NoDup l → (length l ≤ S (size previous))%nat.
Proof.
  intros H Hnd.
  assert (∃ l0 r, l = l0 ++ [r] ∧ ∀ x, x ∈ l0 → is_Some (previous !! x))
    as (l0 & r & -> & Hkeys).
  { clear Hnd. induction H as [v Hv|v u l Hv _ (l0 & r & -> & IH)].
    - exists [], v. split; [done|]. by intros ? ?%elem_of_nil.
    - exists (v :: l0), r. split; [done|].
      intros x [->|Hx]%elem_of_cons; [by eexists | auto]. }
  rewrite length_app. simpl.
  apply NoDup_app in Hnd as (Hnd & _ & _).
  rewrite <- (size_dom (D := gset Z)).
  rewrite <- (size_list_to_set (C := gset Z) l0) by done.
  assert (size (list_to_set (C := gset Z) l0) ≤ size (dom previous))%nat; [|lia].
  apply subseteq_size.
  intros x Hx%elem_of_list_to_set. by apply elem_of_dom, Hkeys.
Qed.

(** ** The search: one road, one node, the whole loop *)

Section search.
Variable nav : GPSNavigator.
Variable s : Z.
Local Abbreviation g := (graph nav).

Lemma search_inv_ext st st' :
  distances st' = distances st → previous st' = previous st →
  visited st' = visited st → priority_queue st' = priority_queue st →
  search_inv g s st → search_inv g s st'.
Proof.
  intros Hd Hp Hv Hq [H1 H2 H3 H4 H5 H6 H7 H8].
  constructor; rewrite ?Hd, ?Hp, ?Hv, ?Hq; assumption.
Qed.

Lemma extends_refl st : extends st st.
Proof.
  split; [done|]. split; [done|]. intros x dx Hx. exists dx. split; [done|lra].
Qed.

Lemma extends_trans st1 st2 st3 :
  extends st1 st2 → extends st2 st3 → extends st1 st3.
Proof.
  intros (Hv1 & Hl1 & Hm1) (Hv2 & Hl2 & Hm2). split; [congruence|]. split.
  - intros x Hx. rewrite Hl2, Hl1; [done..|]. by rewrite Hv1.
  - intros x dx Hx. destruct (Hm1 _ _ Hx) as (dx' & Hx' & Hle).
    destruct (Hm2 _ _ Hx') as (dx'' & Hx'' & Hle'). exists dx''. split; [done|lra].
Qed.

Lemma relaxed_from_extends st st' u roads :
  relaxed_from st u roads → u ∈ visited st → extends st st' →
  relaxed_from st' u roads.
Proof.
  intros Hrel Hu (Hv & Hl & Hm) v w Hin.
  destruct (Hrel v w Hin) as [Hvis|(du & dv & Hdu & Hdv & Hle)].
  - left. by rewrite Hv.
  - right. destruct (Hm _ _ Hdv) as (dv' & Hdv' & Hle').
    exists du, dv'. rewrite Hl by done. split_and!; [done..|lra].
Qed.

Lemma optimal_extends st st' :
  optimal g s st → extends st st' → optimal g s st'.
Proof.
  intros Hopt (Hv & Hl & _) v p W Hvis Hroute. rewrite Hv in Hvis.
  rewrite Hl by done. by apply (Hopt v p W).
Qed.

Arguments relax_road : simpl never.

(** Relaxing one road out of the node [c] being explored. *)
Lemma relax_road_spec st c dc cd v w :
  search_inv g s st → c ∈ visited st →
  distances st !! c = Some (Fin dc) → (dc == cd)%Q →
  (v, w) ∈ neighbours g c →
  match relax_road nav c cd (v, w) st with
  | Ok st' => search_inv g s st' ∧ extends st st' ∧ relaxed_from st' c [(v, w)]
  | Raise _ => ¬ well_formed nav
  | OutOfFuel => False
  end.
Proof.
  intros Hinv Hc Hdc Hcd Hroad. unfold relax_road.
  destruct (decide (v ∈ visited st)) as [Hv|Hv].
  { split; [done|]. split; [apply extends_refl|].
    intros v' w' [= -> ->]%list_elem_of_singleton. by left. }
  destruct (distances st !! v) as [best|] eqn:Hbest.
  2:{ intros [_ Hclosed].
      destruct (inv_domain _ _ _ Hinv v) as [? ?]; [|congruence].
      by eapply closed_neighbour. }
  destruct (lt_xdist (cd + w) best) eqn:Hlt.
  2:{ destruct best as [b|]; [|done]. simpl in Hlt. apply Qltb_ge in Hlt.
      split; [done|]. split; [apply extends_refl|].
      intros v' w' [= -> ->]%list_elem_of_singleton. right.
      exists dc, b. split_and!; [done..|lra]. }
  destruct (lookup_name nav v) as [name|e|] eqn:Hname; simpl.
  3:{ unfold lookup_name in Hname. by destruct (node_names nav !! v). }
  2:{ intros [Hnamed Hclosed].
      destruct (lookup_name_known nav v) as [? ?]; [|congruence].
      apply named_known; [done|]. by eapply closed_neighbour. }
  assert (c ≠ v) as Hcv by (by intros ->).
  assert (s ≠ v) as Hsv by (intros ->; by apply Hv, (inv_start_visited _ _ _ Hinv)).
  assert (∀ b, distances st !! v = Some (Fin b) → (cd + w < b)%Q) as Hless.
  { intros b Hb. rewrite Hbest in Hb. injection Hb as ->. by apply Qltb_lt. }
  split; [|split].
  - constructor; simpl.
    + apply (inv_start_visited _ _ _ Hinv).
    + rewrite lookup_insert_ne by done. apply (inv_start_distance _ _ _ Hinv).
    + rewrite lookup_insert_ne by done. apply (inv_start_previous _ _ _ Hinv).
    + intros x Hx. rewrite lookup_insert. case_decide; [by eexists|].
      by apply (inv_domain _ _ _ Hinv).
    + intros x u. rewrite lookup_insert. destruct (decide (v = x)) as [<-|Hvx].
      * intros [= <-]. split; [done|]. exists w, dc, (cd + w)%Q.
        rewrite lookup_insert_eq, lookup_insert_ne by done. split_and!; [done..|lra].
      * intros Hx.
        destruct (inv_links _ _ _ Hinv x u Hx) as (Hu & w' & du & dx & ? & ? & ? & ?).
        split; [done|]. exists w', du, dx.
        rewrite !lookup_insert_ne; [done|done|]. by intros ->.
    + intros d x [[= -> ->]|Hin]%elem_of_cons Hx.
      * rewrite !lookup_insert_eq. split; [by eexists|].
        exists (cd + w)%Q. split; [done|lra].
      * destruct (inv_queue _ _ _ Hinv d x Hin Hx) as (Hp & dx & Hdx & Hle).
        destruct (decide (v = x)) as [<-|Hvx].
        -- rewrite !lookup_insert_eq. split; [by eexists|].
           exists (cd + w)%Q. split; [done|]. specialize (Hless _ Hdx). lra.
        -- rewrite !lookup_insert_ne by done. eauto.
    + intros x dx Hx. rewrite lookup_insert. destruct (decide (v = x)) as [<-|Hvx].
      * intros [= <-]. exists (cd + w)%Q. split; [by left|lra].
      * intros Hdx. destruct (inv_frontier _ _ _ Hinv x dx Hx Hdx) as (d & Hin & Hd).
        exists d. split; [by right|done].
    + intros x Hx.
      destruct (inv_chains _ _ _ Hinv x Hx) as (l & Hl & Hlast & Hnd & Hsub).
      exists l. split_and!; [|done..]. apply back_chain_insert; [done|].
      intros Hvl. by apply Hv, Hsub.
  - split; [done|]. simpl. split.
    + intros x Hx. rewrite lookup_insert_ne; [done|]. by intros ->.
    + intros x dx Hdx. destruct (decide (v = x)) as [<-|Hvx].
      * exists (cd + w)%Q. rewrite lookup_insert_eq. split; [done|].
        specialize (Hless _ Hdx). lra.
      * exists dx. rewrite lookup_insert_ne by done. split; [done|lra].
  - intros v' w' [= -> ->]%list_elem_of_singleton. right. simpl.
    exists dc, (cd + w)%Q. rewrite lookup_insert_eq, lookup_insert_ne by done.
    split_and!; [done..|lra].
Qed.

(** Relaxing the roads out of [c], one after the other. *)
Lemma relax_spec roads st c dc cd :
  search_inv g s st → c ∈ visited st →
  distances st !! c = Some (Fin dc) → (dc == cd)%Q →
  (∀ road, road ∈ roads → road ∈ neighbours g c) →
  match relax nav c cd roads st with
  | Ok st' => search_inv g s st' ∧ extends st st' ∧ relaxed_from st' c roads
  | Raise _ => ¬ well_formed nav
  | OutOfFuel => False
  end.
Proof.
  revert st. induction roads as [|[v w] roads IH]; intros st Hinv Hc Hdc Hcd Hsub; simpl.
  - split; [done|]. split; [apply extends_refl|]. by intros ? ? ?%elem_of_nil.
  - pose proof (relax_road_spec st c dc cd v w Hinv Hc Hdc Hcd) as Hstep.
    destruct (relax_road nav c cd (v, w) st) as [st1|e|]; simpl;
      [|apply Hstep, Hsub; by left..].
    destruct Hstep as (Hinv1 & Hext1 & Hrel1); [apply Hsub; by left|].
    assert (c ∈ visited st1) as Hc1 by (destruct Hext1 as [-> _]; done).
    assert (distances st1 !! c = Some (Fin dc)) as Hdc1.
    { destruct Hext1 as (_ & -> & _); done. }
    specialize (IH st1 Hinv1 Hc1 Hdc1 Hcd).
    destruct (relax nav c cd roads st1) as [st2|e|];
      [|apply IH; intros; apply Hsub; by right..].
    destruct IH as (Hinv2 & Hext2 & Hrel2); [intros; apply Hsub; by right|].
    split; [done|]. split; [by eapply extends_trans|].
    intros v' w' [[= -> ->]|Hin]%elem_of_cons; [|by apply Hrel2].
    apply (relaxed_from_extends st1 st2 c [(v, w)] Hrel1 Hc1 Hext2). by left.
Qed.

Arguments discard : simpl never.
Arguments explore : simpl never.
Arguments arrive : simpl never.

(** A stale queue entry is dropped. *)
Lemma skip_spec st st1 d c queue :
  search_inv g s st →
  heappop (priority_queue st) = Some ((d, c), queue) →
  c ∈ visited st →
  distances st1 = distances st → previous st1 = previous st →
  visited st1 = visited st → priority_queue st1 = queue →
  search_inv g s st1.
Proof.
  intros Hinv Hpop Hc Hd Hp Hv Hq.
  constructor; rewrite ?Hd, ?Hp, ?Hv, ?Hq.
  - apply (inv_start_visited _ _ _ Hinv).
  - apply (inv_start_distance _ _ _ Hinv).
  - apply (inv_start_previous _ _ _ Hinv).
  - apply (inv_domain _ _ _ Hinv).
  - apply (inv_links _ _ _ Hinv).
  - intros d' x Hin Hx. apply (inv_queue _ _ _ Hinv); [|done].
    apply (heappop_elem _ _ _ _ Hpop). by right.
  - intros x dx Hx Hdx.
    destruct (inv_frontier _ _ _ Hinv x dx Hx Hdx) as (d' & Hin & Hd').
    exists d'. split; [|done].
    apply (heappop_elem _ _ _ _ Hpop) in Hin as [[= -> ->]|Hin]; done.
  - apply (inv_chains _ _ _ Hinv).
Qed.

(** The nearest unvisited node [c] is taken off the queue: its label is
    the distance it was queued with, and it joins the visited set. *)
Lemma visit_spec st st1 d c queue :
  search_inv g s st →
  heappop (priority_queue st) = Some ((d, c), queue) →
  c ∉ visited st →
  distances st1 = distances st → previous st1 = previous st →
  visited st1 = {[c]} ∪ visited st → priority_queue st1 = queue →
  search_inv g s st1 ∧ ∃ dc, distances st !! c = Some (Fin dc) ∧ (dc == d)%Q.
Proof.
  intros Hinv Hpop Hc Hd Hp Hv Hq.
  assert ((d, c) ∈ priority_queue st) as Hin
    by (apply (heappop_elem _ _ _ _ Hpop); by left).
  destruct (inv_queue _ _ _ Hinv d c Hin Hc) as ([u Hu] & dc & Hdc & Hle).
  split.
  - constructor; rewrite ?Hd, ?Hp, ?Hv, ?Hq.
    + apply elem_of_union_r, (inv_start_visited _ _ _ Hinv).
    + apply (inv_start_distance _ _ _ Hinv).
    + apply (inv_start_previous _ _ _ Hinv).
    + apply (inv_domain _ _ _ Hinv).
    + intros x y Hx. destruct (inv_links _ _ _ Hinv x y Hx) as (Hy & Hrest).
      split; [by apply elem_of_union_r | done].
    + intros d' x Hin' Hx. apply (inv_queue _ _ _ Hinv).
      * apply (heappop_elem _ _ _ _ Hpop). by right.
      * set_solver.
    + intros x dx Hx Hdx.
      destruct (inv_frontier _ _ _ Hinv x dx) as (d' & Hin' & Hd'); [set_solver|done|].
      exists d'. split; [|done].
      apply (heappop_elem _ _ _ _ Hpop) in Hin' as [[= -> ->]|Hin']; [set_solver|done].
    + intros x [->%elem_of_singleton|Hx]%elem_of_union.
      * destruct (inv_links _ _ _ Hinv c u Hu) as (Hu' & _).
        destruct (inv_chains _ _ _ Hinv u Hu') as (l & Hl & Hlast & Hnd & Hsub).
        exists (c :: l). split_and!.
        -- by apply back_link with u.
        -- by rewrite last_cons, Hlast.
        -- apply NoDup_cons. split; [|done]. intros Hcl. by apply Hc, Hsub.
        -- intros y [->|Hy]%elem_of_cons; [set_solver|]. by apply elem_of_union_r, Hsub.
      * destruct (inv_chains _ _ _ Hinv x Hx) as (l & Hl & Hlast & Hnd & Hsub).
        exists l. split_and!; [done..|]. intros y Hy. by apply elem_of_union_r, Hsub.
  - exists dc. split; [done|].
    destruct (inv_frontier _ _ _ Hinv c dc Hc Hdc) as (d' & Hin' & Hd').
    pose proof (heappop_least _ _ _ _ _ _ Hpop Hin'). lra.
Qed.

Lemma relaxed_from_visit st st1 u roads :
  relaxed_from st u roads →
  distances st1 = distances st → visited st ⊆ visited st1 →
  relaxed_from st1 u roads.
Proof.
  intros Hrel Hd Hv v w Hin. rewrite Hd.
  destruct (Hrel v w Hin) as [Hvis|Hrest]; [left; by apply Hv | by right].
Qed.

(** No route leaves the visited set for less than the least label
    waiting outside of it. *)
Lemma frontier_bound st m :
  nonneg_roads g → search_inv g s st → relaxed_except g st None → optimal g s st →
  (∀ v dv, v ∉ visited st → distances st !! v = Some (Fin dv) → (m <= dv)%Q) →
  ∀ p v W, route g s p v W → v ∉ visited st → (m <= W)%Q.
Proof.
  intros Hg Hinv Hrel Hopt Hm p v W Hroute.
  induction Hroute as [|p x y w W Hr IH Hroad]; intros Hv.
  - destruct Hv. apply (inv_start_visited _ _ _ Hinv).
  - pose proof (nonneg_road _ _ _ _ Hg Hroad) as Hw.
    destruct (decide (x ∈ visited st)) as [Hx|Hx].
    + destruct (Hopt x p W Hx Hr) as (dx & Hdx & Hle).
      destruct (Hrel x Hx ltac:(done) y w Hroad) as [?|(du & dy & Hdu & Hdy & Hle')];
        [done|].
      rewrite Hdx in Hdu. injection Hdu as <-.
      specialize (Hm y dy Hv Hdy). lra.
    + specialize (IH Hx). lra.
Qed.

(** With roads of non-negative length, the label of the node taken off
    the queue is a lower bound on every route to it. *)
Lemma visit_optimal st st1 d c queue dc :
  nonneg_roads g → search_inv g s st → relaxed_except g st None → optimal g s st →
  heappop (priority_queue st) = Some ((d, c), queue) →
  c ∉ visited st →
  distances st !! c = Some (Fin dc) → (dc == d)%Q →
  distances st1 = distances st → visited st1 = {[c]} ∪ visited st →
  optimal g s st1.
Proof.
  intros Hg Hinv Hrel Hopt Hpop Hc Hdc Hdcd Hd Hv v p W Hvis Hroute.
  rewrite Hd. rewrite Hv in Hvis.
  apply elem_of_union in Hvis as [->%elem_of_singleton|Hvis]; [|by eapply Hopt].
  exists dc. split; [done|].
  assert (d <= W)%Q; [|lra].
  apply (frontier_bound st d Hg Hinv Hrel Hopt) with p c; [|done..].
  intros x dx Hx Hdx.
  destruct (inv_frontier _ _ _ Hinv x dx Hx Hdx) as (d' & Hin' & Hd').
  pose proof (heappop_least _ _ _ _ _ _ Hpop Hin'). lra.
Qed.

(** A node waiting in the queue is a neighbour of a visited node. *)
Lemma queued_known st d c :
  well_formed nav → search_inv g s st →
  (d, c) ∈ priority_queue st → c ∉ visited st → known nav c.
Proof.
  intros [Hnamed Hclosed] Hinv Hin Hc.
  destruct (inv_queue _ _ _ Hinv d c Hin Hc) as ([u Hu] & _).
  destruct (inv_links _ _ _ Hinv c u Hu) as (_ & w & _ & _ & Hroad & _).
  apply named_known; [done|]. by eapply closed_neighbour.
Qed.

(** The main loop, from any state in which the start node has been
    visited: what it returns satisfies the invariants, and it stops
    either with the destination visited or with an empty queue and all
    roads out of visited nodes relaxed.  It raises only on a navigator
    that is not well formed. *)
Lemma search_loop_spec e fuel st :
  search_inv g s st → relaxed_except g st None →
  (nonneg_roads g → optimal g s st) →
  match search_loop nav e fuel st with
  | Ok st' =>
      search_inv g s st' ∧ (nonneg_roads g → optimal g s st') ∧
      (e ∈ visited st' ∨ (priority_queue st' = [] ∧ relaxed_except g st' None))
  | Raise _ => ¬ well_formed nav
  | OutOfFuel => True
  end.
Proof.
  revert st. induction fuel as [|fuel IH]; intros st Hinv Hrel Hopt; simpl; [done|].
  destruct (heappop (priority_queue st)) as [[[d c] queue]|] eqn:Hpop.
  2:{ apply heappop_None in Hpop. auto. }
  destruct (decide (c ∈ visited st)) as [Hc|Hc].
  { apply IH; [|exact Hrel|exact Hopt].
    by apply (skip_spec st _ d c queue). }
  assert ((d, c) ∈ priority_queue st) as Hin
    by (apply (heappop_elem _ _ _ _ Hpop); by left).
  destruct (lookup_name nav c) as [name|e'|] eqn:Hname; simpl.
  3:{ unfold lookup_name in Hname. by destruct (node_names nav !! c). }
  2:{ intros Hwf. destruct (lookup_name_known nav c) as [? ?]; [|congruence].
      by apply (queued_known st d). }
  set (st1 := explore st c d queue name).
  destruct (visit_spec st st1 d c queue) as (Hinv1 & dc & Hdc & Hdcd); [done..|].
  assert (nonneg_roads g → optimal g s st1) as Hopt1.
  { intros Hg. apply (visit_optimal st st1 d c queue dc); auto. }
  destruct (decide (c = e)) as [<-|Hce].
  { rewrite Hname. simpl. split_and!.
    - by apply (search_inv_ext st1).
    - exact Hopt1.
    - left. apply elem_of_union_l. by apply elem_of_singleton. }
  assert (c ∈ visited st1) as Hc1.
  { apply elem_of_union_l. by apply elem_of_singleton. }
  pose proof (relax_spec (neighbours g c) st1 c dc d Hinv1 Hc1 Hdc Hdcd) as Hrelax.
  destruct (relax nav c d (neighbours g c) st1) as [st2|e'|]; simpl;
    [|by apply Hrelax|done].
  destruct Hrelax as (Hinv2 & Hext & Hrelc); [done|].
  apply IH; [done| |].
  - intros u Hu _. rewrite (proj1 Hext) in Hu.
    apply elem_of_union in Hu as [->%elem_of_singleton|Hu]; [done|].
    apply (relaxed_from_extends st1); [|by apply elem_of_union_r|done].
    apply (relaxed_from_visit st); [by apply Hrel|done|].
    intros x Hx. by apply elem_of_union_r.
  - intros Hg. by apply (optimal_extends st1); [apply Hopt1|].
Qed.

(** *** The step budget *)

Lemma relax_road_queue st c cd road st' :
  relax_road nav c cd road st = Ok st' →
  visited st' = visited st ∧
  (length (priority_queue st') ≤ S (length (priority_queue st)))%nat.
Proof.
  unfold relax_road. destruct road as [v w].
  destruct (decide (v ∈ visited st)); [intros [= <-]; split; [done|lia]|].
  destruct (distances st !! v); [|done].
  destruct (lt_xdist (cd + w) x); [|intros [= <-]; split; [done|lia]].
  destruct (lookup_name nav v); simpl; [|done..].
  intros [= <-]. simpl. split; [done|lia].
Qed.

Lemma relax_queue roads st c cd st' :
  relax nav c cd roads st = Ok st' →
  visited st' = visited st ∧
  (length (priority_queue st') ≤ length (priority_queue st) + length roads)%nat.
Proof.
  revert st. induction roads as [|road roads IH]; intros st; simpl.
  - intros [= <-]. split; [done|lia].
  - intros (st1 & H1 & H2)%bind_Ok.
    apply relax_road_queue in H1 as [Hv1 Hq1]. apply IH in H2 as [Hv2 Hq2].
    split; [congruence|lia].
Qed.

Lemma relax_road_not_OutOfFuel st c cd road :
  relax_road nav c cd road st ≠ OutOfFuel.
Proof.
  unfold relax_road. destruct road as [v w].
  destruct (decide (v ∈ visited st)); [done|].
  destruct (distances st !! v); [|done].
  destruct (lt_xdist (cd + w) x); [|done].
  unfold lookup_name. by destruct (node_names nav !! v).
Qed.

Lemma relax_not_OutOfFuel roads st c cd :
  relax nav c cd roads st ≠ OutOfFuel.
Proof.
  revert st. induction roads as [|road roads IH]; intros st; simpl; [done|].
  pose proof (relax_road_not_OutOfFuel st c cd road).
  destruct (relax_road nav c cd road st); simpl; [apply IH|done..].
Qed.

Lemma pending_visit seen c :
  c ∉ seen →
  (pending g ({[c]} ∪ seen) + length (neighbours g c) ≤ pending g seen)%nat.
Proof.
  intros Hc. unfold pending.
  assert (∀ l : list (Z * list (Z * Q)),
    (sum_list ((fun kv => if decide (kv.1 ∈ {[c]} ∪ seen) then 0%nat else length kv.2) <$> l)
     ≤ sum_list ((fun kv => if decide (kv.1 ∈ seen) then 0%nat else length kv.2) <$> l))%nat
    ∧ ∀ roads, (c, roads) ∈ l →
    (sum_list ((fun kv => if decide (kv.1 ∈ {[c]} ∪ seen) then 0%nat else length kv.2) <$> l)
     + length roads
     ≤ sum_list ((fun kv => if decide (kv.1 ∈ seen) then 0%nat else length kv.2) <$> l))%nat)
    as Hsum.
  { induction l as [|[k rs] l [IH1 IH2]]; csimpl.
    - split; [lia|]. by intros ? ?%elem_of_nil.
    - assert ((if decide (k ∈ {[c]} ∪ seen) then 0 else length rs)
              ≤ (if decide (k ∈ seen) then 0 else length rs))%nat as Hk.
      { repeat case_decide; try lia. set_solver. }
      split; [lia|].
      intros roads [[= <- <-]|Hin]%elem_of_cons.
      + rewrite decide_True by set_solver. rewrite decide_False by done. lia.
      + specialize (IH2 _ Hin). lia. }
  unfold neighbours. destruct (g !! c) as [roads|] eqn:Hg; simpl.
  - apply Hsum. by apply elem_of_map_to_list.
  - rewrite Nat.add_0_r. apply Hsum.
Qed.

Lemma pending_empty : pending g ∅ = road_entries g.
Proof. done. Qed.

(** The main loop ends within [potential] turns. *)
Lemma search_loop_fuel e fuel st :
  (potential g st < fuel)%nat → search_loop nav e fuel st ≠ OutOfFuel.
Proof.
  revert st. induction fuel as [|fuel IH]; intros st Hfuel; simpl; [lia|].
  destruct (heappop (priority_queue st)) as [[[d c] queue]|] eqn:Hpop; [|done].
  apply heappop_length in Hpop. unfold potential in Hfuel.
  destruct (decide (c ∈ visited st)) as [Hc|Hc].
  { apply IH. unfold potential. simpl. lia. }
  destruct (lookup_name nav c) as [name|e'|] eqn:Hname; simpl; [|done|].
  2:{ unfold lookup_name in Hname. by destruct (node_names nav !! c). }
  destruct (decide (c = e)) as [<-|Hce]; [by rewrite Hname|].
  destruct (relax nav c d (neighbours g c) (explore st c d queue name))
    as [st2|e'|] eqn:Hrelax; simpl; [|done|by apply relax_not_OutOfFuel in Hrelax].
  apply relax_queue in Hrelax as [Hv Hq]. simpl in Hv, Hq.
  apply IH. unfold potential. rewrite Hv.
  pose proof (pending_visit (visited st) c Hc). lia.
Qed.

(** More budget does not change an answer. *)
Lemma search_loop_more_fuel e fuel fuel' st :
  search_loop nav e fuel st ≠ OutOfFuel → (fuel ≤ fuel')%nat →
  search_loop nav e fuel' st = search_loop nav e fuel st.
Proof.
  revert fuel' st. induction fuel as [|fuel IH]; intros fuel' st; simpl; [done|].
  intros Hrun Hle. destruct fuel' as [|fuel']; [lia|]. simpl.
  destruct (heappop (priority_queue st)) as [[[d c] queue]|]; [|done].
  destruct (decide (c ∈ visited st)); [apply IH; [done|lia]|].
  destruct (lookup_name nav c) as [name|e'|]; simpl in *; [|done..].
  destruct (decide (c = e)); [done|].
  destruct (relax nav c d (neighbours g c) (explore st c d queue name));
    simpl in *; [|done..].
  apply IH; [done|lia].
Qed.

(** *** From the first turn of the loop to the returned result *)

Arguments walk_back : simpl never.

Lemma chain_route st v l :
  search_inv g s st → back_chain (previous st) v l → last l = Some s →
  ∃ W dv, route g s (reverse l) v W ∧
          distances st !! v = Some (Fin dv) ∧ (dv == W)%Q.
Proof.
  intros Hinv. induction 1 as [v Hv|v u l Hv Hl IH]; intros Hlast.
  - injection Hlast as ->. exists 0%Q, 0%Q. split_and!; [constructor| |lra].
    apply (inv_start_distance _ _ _ Hinv).
  - pose proof (back_chain_head _ _ _ Hl) as Hhead.
    destruct l as [|u' l]; [done|]. injection Hhead as ->.
    destruct IH as (W & du & Hroute & Hdu & HW); [done|].
    destruct (inv_links _ _ _ Hinv v u Hv) as (_ & w & du' & dv & Hroad & Hdu' & Hdv & Hsum).
    rewrite Hdu in Hdu'. injection Hdu' as <-.
    exists (W + w)%Q, dv. rewrite reverse_cons. split_and!; [|done|lra].
    by apply route_road with u.
Qed.

(** Once the queue is empty, everything that can be reached has been
    visited. *)
Lemma visited_closed st p v W :
  search_inv g s st → priority_queue st = [] → relaxed_except g st None →
  route g s p v W → v ∈ visited st.
Proof.
  intros Hinv Hq Hrel. induction 1 as [|p x y w W _ IH Hroad].
  - apply (inv_start_visited _ _ _ Hinv).
  - destruct (Hrel x IH ltac:(done) y w Hroad) as [?|(du & dy & _ & Hdy & _)]; [done|].
    destruct (decide (y ∈ visited st)) as [?|Hy]; [done|].
    destruct (inv_frontier _ _ _ Hinv y dy Hy Hdy) as (d & Hin & _).
    rewrite Hq in Hin. by apply elem_of_nil in Hin.
Qed.

(** The state in which the first turn of the loop leaves the search. *)
Lemma started_spec sn en :
  let st1 := explore (initial_state nav s sn en) s 0 [] sn in
  search_inv g s st1 ∧ relaxed_except g st1 (Some s) ∧
  (nonneg_roads g → optimal g s st1).
Proof.
  intros st1. split_and!.
  - constructor; simpl.
    + set_solver.
    + by rewrite lookup_insert_eq.
    + done.
    + intros v Hv. rewrite lookup_insert. case_decide; [by eexists|].
      rewrite lookup_fmap. by apply fmap_is_Some.
    + intros v u Hv. by rewrite lookup_empty in Hv.
    + by intros d v ?%elem_of_nil.
    + intros v dv Hv. rewrite lookup_insert_ne by set_solver.
      rewrite lookup_fmap. by destruct (g !! v).
    + intros v Hv. assert (v = s) as -> by set_solver.
      exists [s]. split_and!; [by apply back_root|done|apply NoDup_singleton|].
      intros x ->%list_elem_of_singleton. set_solver.
  - intros u Hu Hus. simpl in Hu. assert (u = s) as -> by set_solver. done.
  - intros Hg v p W Hv Hroute. simpl in Hv. assert (v = s) as -> by set_solver.
    exists 0%Q. simpl. rewrite lookup_insert_eq. split; [done|].
    by eapply route_nonneg.
Qed.

Lemma search_spec e fuel sn en :
  lookup_name nav s = Ok sn →
  match search_loop nav e fuel (initial_state nav s sn en) with
  | Ok st' =>
      search_inv g s st' ∧ (nonneg_roads g → optimal g s st') ∧
      (e ∈ visited st' ∨ (priority_queue st' = [] ∧ relaxed_except g st' None))
  | Raise _ => ¬ well_formed nav
  | OutOfFuel => True
  end.
Proof.
  intros Hsn. destruct fuel as [|fuel]; [done|]. simpl.
  destruct (decide (s ∈ (∅ : gset Z))) as [?|_]; [set_solver|].
  rewrite Hsn. simpl.
  destruct (started_spec sn en) as (Hinv1 & Hrel1 & Hopt1).
  set (st1 := explore (initial_state nav s sn en) s 0 [] sn) in *.
  destruct (decide (s = e)) as [<-|Hse].
  { rewrite Hsn. simpl. split_and!; [|done|].
    - by apply (search_inv_ext st1).
    - left. simpl. set_solver. }
  assert (s ∈ visited st1) as Hs1 by (simpl; set_solver).
  assert (distances st1 !! s = Some (Fin 0)) as Hd1
    by apply (inv_start_distance _ _ _ Hinv1).
  pose proof (relax_spec (neighbours g s) st1 s 0 0 Hinv1 Hs1 Hd1 ltac:(done)) as Hrelax.
  destruct (relax nav s 0 (neighbours g s) st1) as [st2|e'|]; simpl;
    [|by apply Hrelax|done].
  destruct Hrelax as (Hinv2 & Hext & Hrels); [done|].
  apply search_loop_spec; [done| |].
  - intros u Hu _. rewrite (proj1 Hext) in Hu. simpl in Hu.
    assert (u = s) as -> by set_solver. done.
  - intros Hg. by apply (optimal_extends st1); [apply Hopt1|].
Qed.

(** The engine as a whole. *)
Lemma dijkstra_fuel_spec fuel e :
  match dijkstra_fuel fuel nav s e with
  | Ok r => found nav s e r ∨ no_route nav s e r
  | Raise _ => ¬ (well_formed nav ∧ known nav s ∧ known nav e)
  | OutOfFuel => (fuel < search_fuel nav)%nat
  end.
Proof.
  unfold dijkstra_fuel.
  destruct (lookup_name nav s) as [sn|x|] eqn:Hs; simpl.
  3:{ unfold lookup_name in Hs. by destruct (node_names nav !! s). }
  2:{ intros (_ & Hk & _). destruct (lookup_name_known _ _ Hk). congruence. }
  destruct (lookup_name nav e) as [en|x|] eqn:He; simpl.
  3:{ unfold lookup_name in He. by destruct (node_names nav !! e). }
  2:{ intros (_ & _ & Hk). destruct (lookup_name_known _ _ Hk). congruence. }
  pose proof (search_spec e fuel sn en Hs) as Hspec.
  pose proof (search_loop_fuel e fuel (initial_state nav s sn en)) as Hfuel.
  destruct (search_loop nav e fuel (initial_state nav s sn en)) as [st'|x|]; simpl.
  3:{ unfold search_fuel. unfold potential in Hfuel. simpl in Hfuel.
      rewrite pending_empty in Hfuel.
      destruct (decide (fuel < S (S (road_entries g)))%nat); [done|].
      exfalso. apply Hfuel; [lia|done]. }
  2:{ intros (Hwf & _). by apply Hspec. }
  destruct Hspec as (Hinv & Hopt & Hexit).
  destruct (decide (e ∈ visited st')) as [Hvis|Hvis].
  - destruct (inv_chains _ _ _ Hinv e Hvis) as (l & Hl & Hlast & Hnd & _).
    rewrite (walk_back_chain _ _ _ l) by (done || by apply (back_chain_length _ e)).
    simpl.
    destruct (chain_route st' e l Hinv Hl Hlast) as (W & de & Hroute & Hde & HW).
    apply last_Some in Hlast as [l' ->]. rewrite reverse_snoc in *.
    rewrite decide_True by done. rewrite Hde. left.
    split_and!; [done| |]; simpl.
    + rewrite <- reverse_snoc. by rewrite reverse_Permutation.
    + exists W, de. split_and!; [done..|].
      intros Hg p' W' Hroute'.
      destruct (Hopt Hg e p' W' Hvis Hroute') as (de' & Hde' & Hle).
      rewrite Hde in Hde'. by injection Hde' as <-.
  - destruct Hexit as [?|[Hq Hrel]]; [done|].
    assert (previous st' !! e = None) as Hprev.
    { destruct (previous st' !! e) as [u|] eqn:Hu; [|done].
      destruct (inv_links _ _ _ Hinv e u Hu) as (_ & w & du & de & _ & _ & Hde & _).
      destruct (inv_frontier _ _ _ Hinv e de Hvis Hde) as (d & Hin & _).
      rewrite Hq in Hin. by apply elem_of_nil in Hin. }
    rewrite (walk_back_chain _ _ _ [e] [] (back_root _ e Hprev)) by (simpl; lia).
    simpl. rewrite decide_False.
    2:{ intros ->. apply Hvis, (inv_start_visited _ _ _ Hinv). }
    right. split_and!; [done..|].
    intros (p & W & Hroute). apply Hvis. by eapply visited_closed.
Qed.

Lemma dijkstra_more_fuel fuel e :
  (search_fuel nav ≤ fuel)%nat → dijkstra_fuel fuel nav s e = dijkstra nav s e.
Proof.
  intros Hfuel. unfold dijkstra, dijkstra_fuel.
  destruct (lookup_name nav s) as [sn|x|]; cbn [mbind outcome_bind]; [|done..].
  destruct (lookup_name nav e) as [en|x|]; cbn [mbind outcome_bind]; [|done..].
  assert (search_loop nav e (search_fuel nav) (initial_state nav s sn en) ≠ OutOfFuel)
    as Hrun.
  { apply search_loop_fuel. unfold potential, search_fuel. simpl.
    rewrite pending_empty. lia. }
  by rewrite (search_loop_more_fuel e _ fuel _ Hrun Hfuel).
Qed.

End search.

(** ** The engine: consequences *)

Lemma dijkstra_result nav s e r :
  dijkstra nav s e = Ok r → found nav s e r ∨ no_route nav s e r.
Proof.
  intros H. pose proof (dijkstra_fuel_spec nav s (search_fuel nav) e) as Hspec.
  unfold dijkstra in H. by rewrite H in Hspec.
Qed.


Lemma dijkstra_returns nav s e :
  well_formed nav → known nav s → known nav e → ∃ r, dijkstra nav s e = Ok r.
Proof.
  intros Hwf Hs He.
  pose proof (dijkstra_fuel_spec nav s (search_fuel nav) e) as Hspec.
  unfold dijkstra. destruct (dijkstra_fuel (search_fuel nav) nav s e) as [r|x|].
  - by exists r.
  - by destruct Hspec.
  - lia.
Qed.

Lemma dijkstra_finds nav s e :
  well_formed nav → known nav s → known nav e → reachable (graph nav) s e →
  ∃ r, dijkstra nav s e = Ok r ∧ found nav s e r.
Proof.
  intros Hwf Hs He Hreach. destruct (dijkstra_returns nav s e) as [r Hr]; [done..|].
  exists r. split; [done|].
  destruct (dijkstra_result _ _ _ _ Hr) as [?|(_ & _ & _ & Hno)]; done.
Qed.

(** A failed search certifies that there is no route, a successful one
    that there is. *)
Lemma dijkstra_failure_unreachable nav s e r :
  dijkstra nav s e = Ok r → success r = false → ¬ reachable (graph nav) s e.
Proof.
  intros Hr Hs. destruct (dijkstra_result _ _ _ _ Hr) as [(Hs' & _)|(_ & _ & _ & Hno)];
    [congruence|done].
Qed.

Lemma dijkstra_success_reachable nav s e r :
  dijkstra nav s e = Ok r → success r = true → reachable (graph nav) s e.
Proof.
  intros Hr Hs.
  destruct (dijkstra_result _ _ _ _ Hr) as [(_ & _ & W & d & Hroute & _)|(Hs' & _)];
    [by exists (path r), W|congruence].
Qed.

Lemma dijkstra_unknown_node fuel nav s e :
  ¬ known nav s ∨ ¬ known nav e → dijkstra_fuel fuel nav s e = Raise KeyError.
Proof.
  unfold dijkstra_fuel. intros [Hs|He].
  - by rewrite (lookup_name_unknown _ _ Hs).
  - rewrite (lookup_name_unknown _ _ He).
    unfold lookup_name. by destruct (node_names nav !! s).
Qed.

(** ** The shortest-path engine: the stated properties *)




(** C2, as stated, fails: with two roads of lengths 5 and 2 between nodes
    0 and 1, the path [0; 1] is returned with distance 2, while the length
    read off the adjacency list for the pair (0, 1) is 5. *)
Lemma path_sum_counterexample :
  ¬ (∀ nav S D r, dijkstra nav S D = Ok r → success r = true →
       ∃ t, path_distance (graph nav) (path r) 0 = Some t ∧
            xdist_eq (distance r) (Fin t)).
Proof.
  intros H.
  assert (∃ r, dijkstra parallel_map 0 1 = Ok r ∧ success r = true ∧
               path r = [0; 1] ∧ distance r = Fin 2) as (r & Hr & Hs & Hp & Hd).
  { eexists. split; [vm_compute; reflexivity|]. done. }
  destruct (H _ _ _ _ Hr Hs) as (t & Ht & Heq).
  rewrite Hp in Ht. vm_compute in Ht. injection Ht as <-.
  rewrite Hd in Heq. simpl in Heq. discriminate Heq.
Qed.

(** C2, amended.  When no two roads of different lengths join the same two
    nodes: for every path returned by a successful [dijkstra] call, the
    lengths of the roads between its consecutive nodes, read off the
    adjacency lists and summed, equal the reported distance. *)
Theorem dijkstra_path_sum nav S D r :
  single_roads (graph nav) →
  dijkstra nav S D = Ok r → success r = true →
  ∃ t, path_distance (graph nav) (path r) 0 = Some t ∧
       xdist_eq (distance r) (Fin t).
Proof.
  intros Hg Hr Hs.
  destruct (dijkstra_result _ _ _ _ Hr) as [(_ & _ & W & d & Hroute & Hd & HW & _)|(Hs' & _)];
    [|congruence].
  destruct (route_path_distance _ _ _ _ _ Hg Hroute) as (t & Ht & HtW).
  exists t. split; [done|]. rewrite Hd. simpl. lra.
Qed.

Lemma dijkstra_path_sum_witness :
  single_roads (graph setup_city_map) ∧
  ∃ r, dijkstra setup_city_map 0 11 = Ok r ∧ success r = true ∧
    ∃ t, path_distance (graph setup_city_map) (path r) 0 = Some t ∧
         xdist_eq (distance r) (Fin t).
Proof.
  split; [compute_done|].
  assert (∃ r, dijkstra setup_city_map 0 11 = Ok r ∧ success r = true)
    as (r & Hr & Hs).
  { eexists. split; [vm_compute; reflexivity|]. done. }
  exists r. split_and!; [done..|].
  apply (dijkstra_path_sum setup_city_map 0 11 r); [compute_done|done..].
Defined.

(** C3, as stated, fails: [add_road] gives no name to the nodes it
    introduces, and a search that meets such a node raises [KeyError].
    On [detour_map] the nodes 0 and 2 have a name and roads, 2 cannot be
    reached from 0, and the search from 0 to 2 raises when it relaxes the
    road from 0 to the unnamed node 9. *)
Lemma dijkstra_unreachable_counterexample :
  ¬ (∀ nav S D,
       known nav S → known nav D →
       is_Some (graph nav !! S) → is_Some (graph nav !! D) →
       ¬ reachable (graph nav) S D →
       ∃ r, dijkstra nav S D = Ok r ∧
            success r = false ∧ path r = [] ∧ distance r = Inf).
Proof.
  intros H.
  assert (¬ reachable (graph detour_map) 0 2) as Hno.
  { set (nav := {| graph := graph detour_map; node_names := plain_names 10 |}).
    assert (∃ r, dijkstra nav 0 2 = Ok r ∧ success r = false) as (r & Hr & Hs).
    { eexists. split; [vm_compute; reflexivity|]. done. }
    exact (dijkstra_failure_unreachable nav 0 2 r Hr Hs). }
  destruct (H detour_map 0 2) as (r & Hr & _); [compute_done..|done|].
  vm_compute in Hr. discriminate Hr.
Qed.

(** C3, amended.  On a well-formed navigator (every node that has roads
    has a name, every neighbour listed has an adjacency entry), for a
    start [S] and a destination [D] that both have a name, [D] not
    reachable from [S]: [dijkstra] returns (it does not raise) a result
    with [success = false], an empty path and an infinite distance. *)
Theorem dijkstra_unreachable nav S D :
  well_formed nav → known nav S → known nav D →
  ¬ reachable (graph nav) S D →
  ∃ r, dijkstra nav S D = Ok r ∧
       success r = false ∧ path r = [] ∧ distance r = Inf.
Proof.
  intros Hwf HS HD Hno.
  destruct (dijkstra_returns nav S D) as [r Hr]; [done..|].
  exists r. split; [done|].
  destruct (dijkstra_result _ _ _ _ Hr) as [(_ & _ & W & d & Hroute & _)|(? & ? & ? & _)];
    [|done].
  destruct Hno. by exists (path r), W.
Qed.

Lemma dijkstra_unreachable_witness :
  well_formed islands_map ∧ known islands_map 0 ∧ known islands_map 2 ∧
  ¬ reachable (graph islands_map) 0 2 ∧
  ∃ r, dijkstra islands_map 0 2 = Ok r ∧
       success r = false ∧ path r = [] ∧ distance r = Inf.
Proof.
  assert (¬ reachable (graph islands_map) 0 2) as Hno.
  { eapply dijkstra_failure_unreachable; vm_compute; reflexivity. }
  split_and!; [compute_done..|done|].
  apply (dijkstra_unreachable islands_map 0 2); [compute_done..|done].
Defined.

(** C4.  When every named location has an entry in the adjacency
    structure (as in the map the constructor builds, and after any
    [add_road]), a call whose start or destination is absent from the
    adjacency structure raises [KeyError]; no result is returned. *)
Theorem dijkstra_absent_node nav S D :
  roaded nav →
  graph nav !! S = None ∨ graph nav !! D = None →
  dijkstra nav S D = Raise KeyError.
Proof.
  intros Hroaded Habsent. apply dijkstra_unknown_node.
  destruct Habsent as [H|H]; [left|right]; intros [name Hname];
    destruct (Hroaded _ _ Hname) as [roads Hroads]; congruence.
Qed.

Lemma dijkstra_absent_node_witness :
  roaded setup_city_map ∧
  (graph setup_city_map !! 0 = None ∨ graph setup_city_map !! 999 = None) ∧
  dijkstra setup_city_map 0 999 = Raise KeyError.
Proof.
  assert (graph setup_city_map !! 0 = None ∨ graph setup_city_map !! 999 = None)
    as Habsent by (right; vm_compute; reflexivity).
  split_and!; [compute_done|done|].
  apply (dijkstra_absent_node setup_city_map 0 999); [compute_done|done].
Defined.



(** C10.  Whenever [dijkstra] returns a successful result, its path holds
    no node twice. *)
Theorem dijkstra_path_simple nav S D r :
  dijkstra nav S D = Ok r → success r = true → NoDup (path r).
Proof.
  intros Hr Hs.
  destruct (dijkstra_result _ _ _ _ Hr) as [(_ & Hnd & _)|(Hs' & _)];
    [done|congruence].
Qed.

Lemma dijkstra_path_simple_witness :
  ∃ r, dijkstra setup_city_map 0 11 = Ok r ∧ success r = true ∧ NoDup (path r).
Proof.
  assert (∃ r, dijkstra setup_city_map 0 11 = Ok r ∧ success r = true)
    as (r & Hr & Hs).
  { eexists. split; [vm_compute; reflexivity|]. done. }
  exists r. split_and!; [done..|].
  apply (dijkstra_path_simple setup_city_map 0 11 r); done.
Defined.

(** ** Maps built with [add_road] *)

Lemma closed_iff g :
  closed g ↔ ∀ u v w, (v, w) ∈ neighbours g u → is_Some (g !! v).
Proof.
  split; [intros H u v w; by apply closed_neighbour|].
  intros H u roads Hu. apply Forall_forall. intros [v w] Hin.
  apply (H u v w), elem_of_neighbours. eauto.
Qed.

Lemma nonneg_roads_iff g :
  nonneg_roads g ↔ ∀ u v w, (v, w) ∈ neighbours g u → (0 <= w)%Q.
Proof.
  split; [intros H u v w; by apply nonneg_road|].
  intros H u roads Hu. apply Forall_forall. intros [v w] Hin.
  apply (H u v w), elem_of_neighbours. eauto.
Qed.

Lemma add_road_graph_is_Some g a b w n :
  is_Some (add_road_graph g a b w !! n) ↔ n = a ∨ n = b ∨ is_Some (g !! n).
Proof.
  unfold add_road_graph, append_road. rewrite !lookup_insert_is_Some'. naive_solver.
Qed.

Lemma elem_of_neighbours_add_road nav a b w n road :
  road ∈ neighbours (graph (add_road nav a b w)) n ↔
  road ∈ neighbours (graph nav) n ∨ (n = a ∧ road = (b, w)) ∨ (n = b ∧ road = (a, w)).
Proof.
  rewrite neighbours_add_road, !elem_of_app.
  repeat case_decide; rewrite ?list_elem_of_singleton, ?elem_of_nil; naive_solver.
Qed.

Lemma add_road_closed nav a b w :
  closed (graph nav) → closed (graph (add_road nav a b w)).
Proof.
  rewrite !closed_iff. intros H u v w' Hin.
  apply elem_of_neighbours_add_road in Hin. simpl. apply add_road_graph_is_Some.
  destruct Hin as [Hin|[[_ [= -> _]]|[_ [= -> _]]]]; eauto.
Qed.

Lemma add_road_symmetric nav a b w :
  symmetric (graph nav) → symmetric (graph (add_road nav a b w)).
Proof.
  intros H u v w' Hin.
  apply elem_of_neighbours_add_road in Hin. apply elem_of_neighbours_add_road.
  destruct Hin as [Hin|[[-> [= -> ->]]|[-> [= -> ->]]]]; auto.
Qed.

Lemma add_road_nonneg nav a b w :
  (0 <= w)%Q → nonneg_roads (graph nav) → nonneg_roads (graph (add_road nav a b w)).
Proof.
  rewrite !nonneg_roads_iff. intros Hw H u v w' Hin.
  apply elem_of_neighbours_add_road in Hin.
  destruct Hin as [Hin|[[_ [= _ ->]]|[_ [= _ ->]]]]; eauto.
Qed.

Lemma add_road_roaded nav a b w :
  roaded nav → roaded (add_road nav a b w).
Proof.
  intros H n name Hn. simpl. apply add_road_graph_is_Some.
  right; right. by apply (H n name).
Qed.

Lemma add_roads_invariants nav roads :
  closed (graph nav) → symmetric (graph nav) →
  closed (graph (add_roads nav roads)) ∧ symmetric (graph (add_roads nav roads)) ∧
  (nonneg_roads (graph nav) → Forall (fun c : Z * Z * Q => (0 <= c.2)%Q) roads →
   nonneg_roads (graph (add_roads nav roads))).
Proof.
  revert nav. induction roads as [|[[a b] w] roads IH]; intros nav Hc Hs; simpl.
  - done.
  - destruct (IH (add_road nav a b w)) as (Hc' & Hs' & Hn');
      [by apply add_road_closed|by apply add_road_symmetric|].
    split_and!; [done..|].
    intros Hn [Hw Hroads]%Forall_cons. apply Hn'; [|done].
    by apply add_road_nonneg.
Qed.

Lemma empty_graph_invariants :
  closed (∅ : gmap Z (list (Z * Q))) ∧ symmetric (∅ : gmap Z (list (Z * Q))) ∧
  nonneg_roads (∅ : gmap Z (list (Z * Q))).
Proof.
  split_and!; [apply map_Forall_empty| |apply map_Forall_empty].
  intros u v w Hin. unfold neighbours in Hin. rewrite lookup_empty in Hin.
  by apply elem_of_nil in Hin.
Qed.

(** The map the constructor builds has an adjacency entry for every named
    location. *)
Lemma setup_city_map_roaded : roaded setup_city_map.
Proof. compute_done. Qed.

(** C5, as stated, fails: a road of negative length is stored like any
    other. *)
Lemma add_road_negative_counterexample :
  ¬ (∀ nav a b w, (w < 0)%Q →
       ∀ n road, road ∈ neighbours (graph (add_road nav a b w)) n →
         (0 <= road.2)%Q ∨ road ∈ neighbours (graph nav) n).
Proof.
  intros H.
  destruct (H {| graph := ∅; node_names := ∅ |} 0 1 (-1)%Q ltac:(done) 0 (1, (-1)%Q))
    as [Hle|Hin].
  - apply elem_of_neighbours_add_road. auto.
  - simpl in Hle. lra.
  - unfold neighbours in Hin. simpl in Hin. rewrite lookup_empty in Hin.
    by apply elem_of_nil in Hin.
Qed.

(** C5, amended.  [add_road(a, b, w)], for every [w], negative or not,
    appends [(b, w)] to the adjacency list of [a] and then [(a, w)] to the
    adjacency list of [b], at the end of what these lists held; no other
    list changes, nothing is rejected, and the names are untouched. *)
Theorem add_road_appends nav a b w n :
  neighbours (graph (add_road nav a b w)) n =
    neighbours (graph nav) n
      ++ (if decide (n = a) then [(b, w)] else [])
      ++ (if decide (n = b) then [(a, w)] else [])
  ∧ node_names (add_road nav a b w) = node_names nav.
Proof. split; [apply neighbours_add_road|done]. Qed.

(** C9, as stated, fails: the two searches add the same lengths in
    opposite orders, and sums of binary64 numbers depend on the order.  On
    the map the constructor builds, whose roads all have a positive
    length, the search from 9 to 2 reports 8.100000000000001 and the
    search from 2 to 9 reports 8.1. *)
Lemma dijkstra_symmetric_counterexample :
  Float64.nonneg_roads Float64.connections = true ∧
  ∃ r1 r2,
    Float64.dijkstra Float64.setup_city_map 9 2 = Ok r1 ∧
    Float64.dijkstra Float64.setup_city_map 2 9 = Ok r2 ∧
    Float64.success r1 = true ∧ Float64.success r2 = true ∧
    Float64.path r1 = [9; 6; 7; 8; 5; 2] ∧ Float64.path r2 = [2; 5; 8; 7; 6; 9] ∧
    Float64.distance r1 = 8.100000000000001%float ∧
    Float64.distance r2 = 8.1%float ∧
    PrimFloat.ltb (Float64.distance r2) (Float64.distance r1) = true.
Proof.
  split; [vm_compute; reflexivity|].
  eexists _, _. split; [vm_compute; reflexivity|].
  split; [vm_compute; reflexivity|].
  split_and!; vm_compute; reflexivity.
Qed.

(** C9, amended.  For every map built with [add_road] from roads of
    non-negative length and every pair of nodes [A], [B] for which the
    searches from [A] to [B] and from [B] to [A] both succeed: the path
    returned for either direction, driven backwards, is a route for the
    other direction, and the distance reported for a direction is at most
    the length of that route, the sum of its roads taken in driving
    order. *)
Theorem dijkstra_symmetric names roads A B r1 r2 :
  let nav := add_roads {| graph := ∅; node_names := names |} roads in
  Forall (fun c : Z * Z * Q => (0 <= c.2)%Q) roads →
  dijkstra nav A B = Ok r1 → success r1 = true →
  dijkstra nav B A = Ok r2 → success r2 = true →
  ∃ d1 d2 W1 W2,
    distance r1 = Fin d1 ∧ distance r2 = Fin d2 ∧
    route (graph nav) B (reverse (path r1)) A W1 ∧ (d2 <= W1)%Q ∧
    route (graph nav) A (reverse (path r2)) B W2 ∧ (d1 <= W2)%Q.
Proof.
  intros nav Hroads Hr1 Hs1 Hr2 Hs2.
  destruct empty_graph_invariants as (Hc0 & Hs0 & Hn0).
  destruct (add_roads_invariants {| graph := ∅; node_names := names |} roads Hc0 Hs0)
    as (_ & Hs & Hn).
  specialize (Hn Hn0 Hroads). fold nav in Hs, Hn.
  destruct (dijkstra_result _ _ _ _ Hr1)
    as [(_ & _ & W1 & d1 & Hroute1 & Hd1 & _ & Hopt1)|(? & _)]; [|congruence].
  destruct (dijkstra_result _ _ _ _ Hr2)
    as [(_ & _ & W2 & d2 & Hroute2 & Hd2 & _ & Hopt2)|(? & _)]; [|congruence].
  destruct (route_reverse _ _ _ _ _ Hs Hroute1) as (W1' & Hback1 & _).
  destruct (route_reverse _ _ _ _ _ Hs Hroute2) as (W2' & Hback2 & _).
  exists d1, d2, W1', W2'. split; [done|]. split; [done|].
  split; [done|]. split; [by apply (Hopt2 Hn _ _ Hback1)|].
  split; [done|]. by apply (Hopt1 Hn _ _ Hback2).
Qed.

Lemma dijkstra_symmetric_witness :
  let nav := add_roads {| graph := ∅; node_names := enumerate_names locations |} connections in
  Forall (fun c : Z * Z * Q => (0 <= c.2)%Q) connections ∧
  ∃ r1 r2, dijkstra nav 9 2 = Ok r1 ∧ success r1 = true ∧
           dijkstra nav 2 9 = Ok r2 ∧ success r2 = true ∧
    ∃ d1 d2 W1 W2,
      distance r1 = Fin d1 ∧ distance r2 = Fin d2 ∧
      route (graph nav) 2 (reverse (path r1)) 9 W1 ∧ (d2 <= W1)%Q ∧
      route (graph nav) 9 (reverse (path r2)) 2 W2 ∧ (d1 <= W2)%Q.
Proof.
  intros nav.
  assert (Forall (fun c : Z * Z * Q => (0 <= c.2)%Q) connections) as Hroads
    by compute_done.
  assert (∃ r1, dijkstra nav 9 2 = Ok r1 ∧ success r1 = true) as (r1 & Hr1 & Hs1).
  { eexists. split; [vm_compute; reflexivity|]. done. }
  assert (∃ r2, dijkstra nav 2 9 = Ok r2 ∧ success r2 = true) as (r2 & Hr2 & Hs2).
  { eexists. split; [vm_compute; reflexivity|]. done. }
  split; [exact Hroads|]. exists r1, r2.
  split; [exact Hr1|]. split; [exact Hs1|]. split; [exact Hr2|]. split; [exact Hs2|].
  exact (dijkstra_symmetric (enumerate_names locations) connections 9 2 r1 r2
           Hroads Hr1 Hs1 Hr2 Hs2).
Defined.

(** The map the constructor builds is well formed, its roads have
    positive lengths and no two of them join the same pair of nodes. *)
Lemma setup_city_map_well_formed :
  well_formed setup_city_map ∧ nonneg_roads (graph setup_city_map) ∧
  single_roads (graph setup_city_map) ∧ symmetric (graph setup_city_map).
Proof.
  split_and!; [compute_done..|].
  destruct empty_graph_invariants as (Hc0 & Hs0 & _).
  by destruct (add_roads_invariants
    {| graph := ∅; node_names := enumerate_names locations |} connections Hc0 Hs0)
    as (_ & Hs & _).
Qed.

(** The scenario of the specification: with roads (0,1,2.1), (1,2,1.9) and
    (0,2,5.0) the route from 0 to 2 goes through 1 and is 4.0 long. *)
Example triangle_shortest_path :
  ∃ r, dijkstra triangle_map 0 2 = Ok r ∧ success r = true ∧
       path r = [0; 1; 2] ∧ xdist_eq (distance r) (Fin 4.0).
Proof. eexists. split; [vm_compute; reflexivity|]. done. Qed.

(** The three routes of [demo_gps_navigation]. *)
Example demo_routes :
  (∃ r, dijkstra setup_city_map 0 11 = Ok r ∧
        path r = [0; 3; 6; 7; 8; 11] ∧ xdist_eq (distance r) (Fin 8.0)) ∧
  (∃ r, dijkstra setup_city_map 3 10 = Ok r ∧
        path r = [3; 6; 7; 10] ∧ xdist_eq (distance r) (Fin 5.2)) ∧
  (∃ r, dijkstra setup_city_map 1 8 = Ok r ∧
        path r = [1; 2; 5; 8] ∧ xdist_eq (distance r) (Fin 4.6)).
Proof.
  split_and!; (eexists; split; [vm_compute; reflexivity|]; done).
Qed.

(** ** Travel time *)

(** C7, as stated, fails: with a negative average speed the call returns,
    and what it returns is a negative duration. *)
Lemma calculate_route_time_counterexample :
  ¬ (∀ distance_km avg_speed_kmh, (avg_speed_kmh <= 0)%Q →
       ∃ e, calculate_route_time distance_km avg_speed_kmh = Raise e).
Proof.
  intros H. destruct (H 60%Q (-30)%Q ltac:(done)) as [e He]. discriminate He.
Qed.

(** C7, amended.  With a zero average speed the call fails (Python's
    [ZeroDivisionError]) and produces no infinity; with any other speed,
    negative ones included, it returns [distance / averageSpeed * 60]
    minutes; with 60 km at the default 30 km/h it returns 120. *)
Theorem calculate_route_time_spec :
  (∀ distance_km avg_speed_kmh,
     match calculate_route_time distance_km avg_speed_kmh with
     | Ok minutes =>
         ¬ (avg_speed_kmh == 0)%Q ∧ minutes = (distance_km / avg_speed_kmh * 60)%Q
     | Raise e => e = ZeroDivisionError ∧ (avg_speed_kmh == 0)%Q
     | OutOfFuel => False
     end) ∧
  (∃ minutes, calculate_route_time 60 default_avg_speed_kmh = Ok minutes ∧
              (minutes == 120)%Q) ∧
  (∃ minutes, calculate_route_time 60 (-30) = Ok minutes ∧ (minutes == -120)%Q).
Proof.
  split_and!.
  - intros d v. unfold calculate_route_time.
    destruct (Qeq_bool v 0) eqn:E.
    + split; [done|]. by apply Qeq_bool_iff.
    + split; [|done]. by apply Qeq_bool_neq.
  - eexists. split; [reflexivity|]. done.
  - eexists. split; [reflexivity|]. done.
Qed.

(** ** Turn-by-turn directions *)

(** One turn of the loop. *)
Lemma directions_loop_step nav len_path i current next_node rest total dirs :
  directions_loop nav len_path i (current :: next_node :: rest) total dirs =
  match find_road (neighbours (graph nav) current) next_node with
  | None => Raise TypeError
  | Some distance =>
      directions ←
        (if decide (i = 0%nat) then
           name ← lookup_name nav current;
           Ok (dirs ++ ["1. Start at " +:+ name])
         else Ok dirs);
      next_name ← lookup_name nav next_node;
      directions_loop nav len_path (S i) (next_node :: rest) (total + distance)%Q
        (directions ++
           [if decide (i = (len_path - 2)%nat) then
              pretty (i + 2)%nat +:+ ". Arrive at " +:+ next_name
                +:+ " (" +:+ format_1f distance +:+ "km)"
            else
              pretty (i + 2)%nat +:+ ". Continue to " +:+ next_name
                +:+ " (" +:+ format_1f distance +:+ "km)"])
  end.
Proof. done. Qed.

Lemma directions_loop_spec nav path ahead i total dirs :
  drop i path = ahead → drivable nav ahead →
  (i = 0%nat → (2 ≤ length ahead)%nat) →
  directions_loop nav (length path) i ahead total dirs =
  Ok (dirs ++ (if decide (i = 0%nat) then [instruction nav path 0] else [])
           ++ (instruction nav path <$> seq (S i) (length ahead - 1))).
Proof.
  revert i total dirs.
  induction ahead as [|current ahead IH]; intros i total dirs Hdrop Hdrv Hi.
  { simpl. rewrite decide_False by (intros ?; simpl in Hi; lia). by rewrite app_nil_r. }
  destruct ahead as [|next_node rest].
  { simpl. rewrite decide_False by (intros ?; simpl in Hi; lia). by rewrite app_nil_r. }
  destruct Hdrv as ([cname Hc] & [nname Hn] & [d Hd] & Hdrv).
  assert (path !! i = Some current) as Hpi.
  { rewrite <- (Nat.add_0_r i), <- lookup_drop, Hdrop. done. }
  assert (path !! S i = Some next_node) as Hpsi.
  { replace (S i) with (i + 1)%nat by lia. rewrite <- lookup_drop, Hdrop. done. }
  assert (length path = (i + S (S (length rest)))%nat) as Hlen.
  { pose proof (f_equal length Hdrop) as Hl. rewrite length_drop in Hl. simpl in Hl.
    apply lookup_lt_Some in Hpi. lia. }
  assert (drop (S i) path = next_node :: rest) as Hdrop'.
  { rewrite <- (Nat.add_1_r i), <- drop_drop, Hdrop. done. }
  rewrite directions_loop_step, Hd.
  apply lookup_name_Ok in Hc, Hn. rewrite Hn. apply lookup_name_Ok in Hc, Hn.
  assert (instruction nav path (S i) =
          (if decide (i = (length path - 2)%nat)
           then pretty (i + 2)%nat +:+ ". Arrive at " +:+ nname
                  +:+ " (" +:+ format_1f d +:+ "km)"
           else pretty (i + 2)%nat +:+ ". Continue to " +:+ nname
                  +:+ " (" +:+ format_1f d +:+ "km)")) as Hline.
  { unfold instruction. rewrite Hpi, Hpsi. cbn [mbind option_bind default].
    rewrite Hn, Hd. cbn [default]. replace (i + 2)%nat with (S (S i)) by lia.
    destruct (decide (i = (length path - 2)%nat)).
    - by rewrite decide_True by lia.
    - by rewrite decide_False by lia. }
  replace (length (current :: next_node :: rest) - 1)%nat with (S (length rest))
    by (simpl; lia).
  destruct (decide (i = 0%nat)) as [->|Hi0].
  - apply lookup_name_Ok in Hc. rewrite Hc. apply lookup_name_Ok in Hc.
    cbn [mbind outcome_bind]. rewrite <- Hline.
    rewrite (IH 1%nat); [|done..|lia]. rewrite decide_False by lia.
    f_equal. cbn [length]. rewrite Nat.sub_succ, Nat.sub_0_r.
    assert (instruction nav path 0 = "1. Start at " +:+ cname) as ->.
    { unfold instruction. rewrite Hpi. cbn [mbind option_bind]. by rewrite Hc. }
    rewrite <- cons_seq, fmap_cons. by rewrite <- !app_assoc.
  - cbn [mbind outcome_bind]. rewrite <- Hline.
    rewrite (IH (S i)); [|done..|lia]. rewrite decide_False by lia.
    f_equal. cbn [length]. rewrite Nat.sub_succ, Nat.sub_0_r.
    rewrite <- cons_seq, fmap_cons. by rewrite <- !app_assoc.
Qed.



(** * Further properties of the engine *)

Lemma relax_road_raises nav c cd road st e :
  relax_road nav c cd road st = Raise e → e = KeyError.
Proof.
  unfold relax_road. destruct road as [v w].
  destruct (decide (v ∈ visited st)); [done|].
  destruct (distances st !! v) as [best|]; [|by intros [= <-]].
  destruct (lt_xdist (cd + w) best); [|done].
  unfold lookup_name. destruct (node_names nav !! v); [done|by intros [= <-]].
Qed.

Lemma relax_raises nav c cd roads st e :
  relax nav c cd roads st = Raise e → e = KeyError.
Proof.
  revert st. induction roads as [|road roads IH]; intros st; [done|].
  cbn [relax]. destruct (relax_road nav c cd road st) as [st1|e1|] eqn:E;
    cbn [mbind outcome_bind]; [apply IH| |done].
  intros [= <-]. by eapply relax_road_raises.
Qed.

Lemma lookup_name_raises nav node e :
  lookup_name nav node = Raise e → e = KeyError.
Proof. unfold lookup_name. destruct (node_names nav !! node); [done|by intros [= <-]]. Qed.

Lemma search_loop_raises nav e_node fuel st e :
  search_loop nav e_node fuel st = Raise e → e = KeyError.
Proof.
  revert st. induction fuel as [|fuel IH]; intros st; [done|]. cbn [search_loop].
  destruct (heappop (priority_queue st)) as [[[d c] queue]|]; [|done].
  destruct (decide (c ∈ visited st)); [apply IH|].
  destruct (lookup_name nav c) as [name|e1|] eqn:Hname; cbn [mbind outcome_bind];
    [| intros [= <-]; by eapply lookup_name_raises | done].
  destruct (decide (c = e_node)) as [<-|].
  { rewrite Hname. done. }
  destruct (relax nav c d (neighbours (graph nav) c) (explore st c d queue name))
    as [st2|e2|] eqn:Hrelax; cbn [mbind outcome_bind]; [apply IH| |done].
  intros [= <-]. by eapply relax_raises.
Qed.

Lemma dijkstra_fuel_raises fuel nav src dst e :
  dijkstra_fuel fuel nav src dst = Raise e → e = KeyError.
Proof.
  unfold dijkstra_fuel.
  destruct (lookup_name nav src) as [sn|e1|] eqn:HS; cbn [mbind outcome_bind];
    [| intros [= <-]; by eapply lookup_name_raises | done].
  destruct (lookup_name nav dst) as [en|e1|] eqn:HD; cbn [mbind outcome_bind];
    [| intros [= <-]; by eapply lookup_name_raises | done].
  destruct (search_loop nav dst fuel (initial_state nav src sn en)) as [st|e1|] eqn:Hloop;
    cbn [mbind outcome_bind]; [| intros [= <-]; by eapply search_loop_raises | done].
  destruct (walk_back (previous st) (S (size (previous st))) dst []) as [walked|e1|] eqn:Hw;
    cbn [mbind outcome_bind]; [| by apply walk_back_not_Raise in Hw | done].
  destruct (reverse walked) as [|first rest]; [done|].
  destruct (decide (first = src)); [|done].
  destruct (distances st !! dst); [done|by intros [= <-]].
Qed.

Lemma dijkstra_Ok_known nav S D r :
  dijkstra nav S D = Ok r → known nav S ∧ known nav D.
Proof.
  unfold dijkstra, dijkstra_fuel, known.
  destruct (lookup_name nav S) as [sn|e1|] eqn:HS; cbn [mbind outcome_bind]; [|done..].
  destruct (lookup_name nav D) as [en|e1|] eqn:HD; cbn [mbind outcome_bind]; [|done..].
  apply lookup_name_Ok in HS, HD. intros _. split; by eexists.
Qed.

(** X1.  Both loops of [dijkstra] end, on every navigator: the search
    loop within [2 + (number of adjacency entries)] turns, the path
    reconstruction within [len(previous) + 1]; a larger budget gives the
    same outcome. *)
Theorem dijkstra_loops_terminate nav S D fuel :
  (search_fuel nav ≤ fuel)%nat →
  dijkstra_fuel fuel nav S D = dijkstra nav S D ∧ dijkstra nav S D ≠ OutOfFuel.
Proof.
  intros Hfuel. split; [by apply dijkstra_more_fuel|].
  intros H. pose proof (dijkstra_fuel_spec nav S (search_fuel nav) D) as Hspec.
  unfold dijkstra in H. rewrite H in Hspec. lia.
Qed.

Lemma dijkstra_loops_terminate_witness :
  (search_fuel setup_city_map ≤ 1000)%nat ∧
  dijkstra_fuel 1000 setup_city_map 0 11 = dijkstra setup_city_map 0 11 ∧
  dijkstra setup_city_map 0 11 ≠ OutOfFuel.
Proof.
  assert (search_fuel setup_city_map ≤ 1000)%nat as Hfuel by (vm_compute; lia).
  split; [exact Hfuel|].
  exact (dijkstra_loops_terminate setup_city_map 0 11 1000 Hfuel).
Defined.

(** X2.  [dijkstra] returns a result for every two named nodes of a
    well-formed navigator; and whenever it raises, on any navigator, the
    exception is [KeyError]. *)
Theorem dijkstra_exceptions nav S D :
  (well_formed nav → known nav S → known nav D → ∃ r, dijkstra nav S D = Ok r) ∧
  (∀ e, dijkstra nav S D = Raise e → e = KeyError).
Proof.
  split; [apply dijkstra_returns|]. intros e. apply dijkstra_fuel_raises.
Qed.

Lemma dijkstra_exceptions_witness :
  well_formed setup_city_map ∧ known setup_city_map 3 ∧ known setup_city_map 10 ∧
  (∃ r, dijkstra setup_city_map 3 10 = Ok r) ∧
  dijkstra setup_city_map 3 999 = Raise KeyError ∧ KeyError = KeyError.
Proof.
  destruct (dijkstra_exceptions setup_city_map 3 10) as [Hreturns _].
  destruct (dijkstra_exceptions setup_city_map 3 999) as [_ Hraises].
  assert (dijkstra setup_city_map 3 999 = Raise KeyError) as Hr
    by (vm_compute; reflexivity).
  split_and!; [compute_done..| |exact Hr|exact (Hraises _ Hr)].
  apply Hreturns; compute_done.
Defined.



Lemma route_app g a b c p1 p2 W1 W2 :
  route g a p1 b W1 → route g b p2 c W2 →
  ∃ p W, route g a p c W ∧ (W == W1 + W2)%Q.
Proof.
  intros H1. induction 1 as [|p x y w W _ (p' & W' & IH & HW) Hroad].
  - exists p1, W1. split; [done|lra].
  - exists (p' ++ [y]), (W' + w)%Q. split; [by apply route_road with x|lra].
Qed.

(** Two routes driven one after the other. *)
Lemma route_join g a b c p1 p2 W1 W2 :
  route g a p1 b W1 → route g b p2 c W2 →
  ∃ W, route g a (p1 ++ tail p2) c W.
Proof.
  intros H1. induction 1 as [|p x y w W Hr [W' IH] Hroad].
  - exists W1. by rewrite app_nil_r.
  - destruct (route_ends _ _ _ _ _ Hr) as [Hhead _].
    destruct p as [|n p]; [done|]. cbn [app tail] in *.
    exists (W' + w)%Q. rewrite app_assoc. by apply route_road with x.
Qed.

(** X5.  Going through a third node is never shorter.  With roads of
    non-negative length, if the searches from [A] to [B], from [B] to [C]
    and from [A] to [C] succeed, the distance reported from [A] to [C] is
    at most the length of the route that follows the path returned from
    [A] to [B] and then the path returned from [B] to [C], the sum of its
    roads taken in driving order. *)
Theorem dijkstra_triangle nav A B C r1 r2 r3 :
  nonneg_roads (graph nav) →
  dijkstra nav A B = Ok r1 → success r1 = true →
  dijkstra nav B C = Ok r2 → success r2 = true →
  dijkstra nav A C = Ok r3 → success r3 = true →
  ∃ d3 W, distance r3 = Fin d3 ∧
          route (graph nav) A (path r1 ++ tail (path r2)) C W ∧ (d3 <= W)%Q.
Proof.
  intros Hg H1 Hs1 H2 Hs2 H3 Hs3.
  destruct (dijkstra_result _ _ _ _ H1)
    as [(_ & _ & W1 & d1 & Hroute1 & _)|(? & _)]; [|congruence].
  destruct (dijkstra_result _ _ _ _ H2)
    as [(_ & _ & W2 & d2 & Hroute2 & _)|(? & _)]; [|congruence].
  destruct (route_join _ _ _ _ _ _ _ _ Hroute1 Hroute2) as (W & Hroute).
  destruct (dijkstra_result _ _ _ _ H3)
    as [(_ & _ & W3 & d3 & _ & Hd3 & _ & Hopt)|(? & _)]; [|congruence].
  exists d3, W. split; [done|]. split; [done|]. by apply (Hopt Hg _ _ Hroute).
Qed.

Lemma dijkstra_triangle_witness :
  nonneg_roads (graph setup_city_map) ∧
  ∃ r1 r2 r3,
    dijkstra setup_city_map 0 3 = Ok r1 ∧ success r1 = true ∧
    dijkstra setup_city_map 3 9 = Ok r2 ∧ success r2 = true ∧
    dijkstra setup_city_map 0 9 = Ok r3 ∧ success r3 = true ∧
    ∃ d3 W, distance r3 = Fin d3 ∧
            route (graph setup_city_map) 0 (path r1 ++ tail (path r2)) 9 W ∧
            (d3 <= W)%Q.
Proof.
  assert (nonneg_roads (graph setup_city_map)) as Hg by compute_done.
  assert (∃ r, dijkstra setup_city_map 0 3 = Ok r ∧ success r = true) as (r1 & H1 & Hs1).
  { eexists. split; [vm_compute; reflexivity|]. done. }
  assert (∃ r, dijkstra setup_city_map 3 9 = Ok r ∧ success r = true) as (r2 & H2 & Hs2).
  { eexists. split; [vm_compute; reflexivity|]. done. }
  assert (∃ r, dijkstra setup_city_map 0 9 = Ok r ∧ success r = true) as (r3 & H3 & Hs3).
  { eexists. split; [vm_compute; reflexivity|]. done. }
  split; [exact Hg|]. exists r1, r2, r3.
  split; [exact H1|]. split; [exact Hs1|]. split; [exact H2|]. split; [exact Hs2|].
  split; [exact H3|]. split; [exact Hs3|].
  exact (dijkstra_triangle setup_city_map 0 3 9 r1 r2 r3 Hg H1 Hs1 H2 Hs2 H3 Hs3).
Defined.

(** ** Further properties of the road store *)

Lemma add_roads_names nav roads :
  node_names (add_roads nav roads) = node_names nav.
Proof.
  revert nav. induction roads as [|[[a b] w] roads IH]; intros nav; [done|].
  simpl. by rewrite IH.
Qed.

Lemma add_roads_keys nav roads n :
  is_Some (graph (add_roads nav roads) !! n) ↔
  is_Some (graph nav !! n) ∨ ∃ a b w, (a, b, w) ∈ roads ∧ (n = a ∨ n = b).
Proof.
  revert nav. induction roads as [|[[a b] w] roads IH]; intros nav.
  - simpl. split; [auto|]. intros [?|(a & b & w & Hin & _)]; [done|].
    by apply elem_of_nil in Hin.
  - change (add_roads nav ((a, b, w) :: roads))
      with (add_roads (add_road nav a b w) roads).
    rewrite IH. cbn [graph add_road]. rewrite add_road_graph_is_Some. split.
    + intros [[->|[->|?]]|(a' & b' & w' & Hin & Hn)].
      * right. exists a, b, w. split; [left|by left].
      * right. exists a, b, w. split; [left|by right].
      * by left.
      * right. exists a', b', w'. split; [by right|done].
    + intros [?|(a' & b' & w' & [[= -> -> ->]|Hin]%elem_of_cons & Hn)].
      * auto.
      * left. destruct Hn; auto.
      * right. by exists a', b', w'.
Qed.

(** X6.  A map built from the empty one by calls of [add_road] records
    every road in both directions, lists no neighbour that is not itself a
    key, has exactly the end points of the roads as keys, and keeps the
    names it was given. *)
Theorem add_roads_well_built names roads :
  let nav := add_roads {| graph := ∅; node_names := names |} roads in
  symmetric (graph nav) ∧ closed (graph nav) ∧ node_names nav = names ∧
  ∀ n, is_Some (graph nav !! n) ↔ ∃ a b w, (a, b, w) ∈ roads ∧ (n = a ∨ n = b).
Proof.
  intros nav. destruct empty_graph_invariants as (Hc0 & Hs0 & _).
  destruct (add_roads_invariants {| graph := ∅; node_names := names |} roads Hc0 Hs0)
    as (Hc & Hs & _).
  split_and!; [done|done|apply add_roads_names|].
  intros n. unfold nav. rewrite add_roads_keys. simpl. rewrite lookup_empty.
  split; [intros [[? ?]|?]; done|auto].
Qed.

Lemma add_road_well_formed nav a b w :
  well_formed nav → known nav a → known nav b → well_formed (add_road nav a b w).
Proof.
  intros [Hnamed Hclosed] Ha Hb. split; [|by apply add_road_closed].
  intros n roads Hn. unfold known. simpl.
  assert (is_Some (graph (add_road nav a b w) !! n)) as Hsome by by eexists.
  apply add_road_graph_is_Some in Hsome as [->|[->|Hsome]]; [done..|].
  by apply named_known.
Qed.

(** X7.  Adding a road and then asking for it: on a well-formed navigator
    with roads of non-negative length, after [add_road(a, b, w)] with
    [w >= 0] between two named nodes, the searches from [a] to [b] and
    from [b] to [a] both succeed with a distance of at most [w]. *)
Theorem add_road_then_dijkstra nav a b w :
  well_formed nav → nonneg_roads (graph nav) → (0 <= w)%Q →
  known nav a → known nav b →
  ∃ r1 r2 d1 d2,
    dijkstra (add_road nav a b w) a b = Ok r1 ∧ success r1 = true ∧
    distance r1 = Fin d1 ∧ (d1 <= w)%Q ∧
    dijkstra (add_road nav a b w) b a = Ok r2 ∧ success r2 = true ∧
    distance r2 = Fin d2 ∧ (d2 <= w)%Q.
Proof.
  intros Hwf Hg Hw Ha Hb.
  pose proof (add_road_well_formed nav a b w Hwf Ha Hb) as Hwf'.
  pose proof (add_road_nonneg nav a b w Hw Hg) as Hg'.
  assert (route (graph (add_road nav a b w)) a ([a] ++ [b]) b (0 + w)) as Hab.
  { apply route_road with a; [constructor|].
    apply elem_of_neighbours_add_road. auto. }
  assert (route (graph (add_road nav a b w)) b ([b] ++ [a]) a (0 + w)) as Hba.
  { apply route_road with b; [constructor|].
    apply elem_of_neighbours_add_road. auto. }
  assert (reachable (graph (add_road nav a b w)) a b) as Hrab.
  { exists ([a] ++ [b]), (0 + w)%Q. exact Hab. }
  assert (reachable (graph (add_road nav a b w)) b a) as Hrba.
  { exists ([b] ++ [a]), (0 + w)%Q. exact Hba. }
  destruct (dijkstra_finds (add_road nav a b w) a b Hwf')
    as (r1 & Hr1 & Hs1 & _ & W1 & d1 & _ & Hd1 & _ & Hopt1); [done..|].
  destruct (dijkstra_finds (add_road nav a b w) b a Hwf')
    as (r2 & Hr2 & Hs2 & _ & W2 & d2 & _ & Hd2 & _ & Hopt2); [done..|].
  exists r1, r2, d1, d2.
  pose proof (Hopt1 Hg' _ _ Hab). pose proof (Hopt2 Hg' _ _ Hba).
  split_and!; [done|done|done|lra|done|done|done|lra].
Qed.

Lemma add_road_then_dijkstra_witness :
  well_formed setup_city_map ∧ nonneg_roads (graph setup_city_map) ∧
  (0 <= 0.5)%Q ∧ known setup_city_map 0 ∧ known setup_city_map 11 ∧
  ∃ r1 r2 d1 d2,
    dijkstra (add_road setup_city_map 0 11 0.5) 0 11 = Ok r1 ∧ success r1 = true ∧
    distance r1 = Fin d1 ∧ (d1 <= 0.5)%Q ∧
    dijkstra (add_road setup_city_map 0 11 0.5) 11 0 = Ok r2 ∧ success r2 = true ∧
    distance r2 = Fin d2 ∧ (d2 <= 0.5)%Q.
Proof.
  split_and!; [compute_done..|].
  apply (add_road_then_dijkstra setup_city_map 0 11 0.5); compute_done.
Defined.

Lemma relax_road_frame nav c cd v w st st' :
  relax_road nav c cd (v, w) st = Ok st' →
  visited st' = visited st ∧ ∀ x, x ≠ v → distances st' !! x = distances st !! x.
Proof.
  unfold relax_road.
  destruct (decide (v ∈ visited st)); [by intros [= <-]|].
  destruct (distances st !! v) as [best|]; [|done].
  destruct (lt_xdist (cd + w) best); [|by intros [= <-]].
  destruct (lookup_name nav v); cbn [mbind outcome_bind]; [|done..].
  intros [= <-]. simpl. split; [done|]. intros x Hx. by rewrite lookup_insert_ne.
Qed.

(** Relaxing a road that leads to an unvisited node without a name, whose
    label is still infinite, raises [KeyError]. *)
Lemma relax_unnamed nav c cd roads st b :
  (∃ w, (b, w) ∈ roads) → ¬ known nav b →
  b ∉ visited st → distances st !! b = Some Inf →
  relax nav c cd roads st = Raise KeyError.
Proof.
  intros Hin Hb. revert st.
  induction roads as [|[v w] roads IH]; intros st Hvis Hdist.
  { destruct Hin as [w Hin]. by apply elem_of_nil in Hin. }
  cbn [relax]. destruct (decide (v = b)) as [->|Hvb].
  - unfold relax_road. rewrite decide_False by done. rewrite Hdist.
    cbn [lt_xdist]. by rewrite (lookup_name_unknown _ _ Hb).
  - destruct (relax_road nav c cd (v, w) st) as [st1|e|] eqn:Hroad;
      cbn [mbind outcome_bind].
    + apply relax_road_frame in Hroad as [Hv Hd]. apply IH.
      * destruct Hin as [w' [[= ? ?]|Hin]%elem_of_cons]; [done|by exists w'].
      * by rewrite Hv.
      * by rewrite Hd.
    + by rewrite (relax_road_raises _ _ _ _ _ _ Hroad).
    + by apply relax_road_not_OutOfFuel in Hroad.
Qed.

(** X8.  [add_road] gives no name to the nodes it introduces: after a
    road from a named node [a] to a node [b] without a name has been
    added, every search that starts at [a] for another destination raises
    [KeyError]. *)
Theorem add_road_unnamed_node nav a b w dst :
  known nav a → ¬ known nav b → dst ≠ a →
  dijkstra (add_road nav a b w) a dst = Raise KeyError.
Proof.
  intros Ha Hb Hdst.
  assert (a ≠ b) as Hab by (by intros ->).
  destruct (lookup_name_known _ _ Ha) as [sn Hsn].
  unfold dijkstra, dijkstra_fuel, search_fuel.
  change (lookup_name (add_road nav a b w)) with (lookup_name nav).
  rewrite Hsn. cbn [mbind outcome_bind].
  destruct (lookup_name nav dst) as [en|e|] eqn:Hen; cbn [mbind outcome_bind].
  3:{ unfold lookup_name in Hen. by destruct (node_names nav !! dst). }
  2:{ by rewrite (lookup_name_raises _ _ _ Hen). }
  cbn [search_loop initial_state priority_queue heappop visited].
  destruct (decide (a ∈ (∅ : gset Z))) as [?|_]; [set_solver|].
  change (lookup_name (add_road nav a b w)) with (lookup_name nav).
  rewrite Hsn. cbn [mbind outcome_bind].
  rewrite decide_False by done.
  rewrite (relax_unnamed (add_road nav a b w) a 0 _ _ b); [done| |done| |].
  - exists w. apply elem_of_neighbours_add_road. auto.
  - simpl. set_solver.
  - simpl. rewrite lookup_insert_ne by done. rewrite lookup_fmap.
    destruct (add_road_graph_is_Some (graph nav) a b w b) as [_ [roads ->]]; auto.
Qed.

Lemma add_road_unnamed_node_witness :
  known setup_city_map 0 ∧ ¬ known setup_city_map 12 ∧ 11 ≠ 0 ∧
  dijkstra (add_road setup_city_map 0 12 1) 0 11 = Raise KeyError.
Proof.
  split_and!; [compute_done..|].
  apply (add_road_unnamed_node setup_city_map 0 12 1 11); compute_done.
Defined.

(** ** Further properties of the directions *)

Lemma directions_loop_outcome nav len_path ahead i total dirs :
  (i ≠ 0%nat → match ahead with c :: _ => known nav c | [] => True end) →
  match directions_loop nav len_path i ahead total dirs with
  | Ok _ => drivable nav ahead
  | Raise e => ¬ drivable nav ahead ∧ (e = TypeError ∨ e = KeyError)
  | OutOfFuel => False
  end.
Proof.
  revert i total dirs. induction ahead as [|current ahead IH]; intros i total dirs Hi.
  { done. }
  destruct ahead as [|next_node rest]; [done|].
  rewrite directions_loop_step.
  destruct (find_road (neighbours (graph nav) current) next_node) as [d|] eqn:Hd.
  2:{ split; [|by left]. intros (_ & _ & [? ?] & _). congruence. }
  assert (known nav current ∨ (i = 0%nat ∧ ¬ known nav current)) as [[cname Hc]|[-> Hc]].
  { destruct (decide (known nav current)) as [?|Hunknown]; [by left|].
    right. split; [|done]. destruct (decide (i = 0%nat)) as [?|Hi0]; [done|].
    destruct Hunknown. by apply Hi. }
  2:{ rewrite decide_True by done. rewrite (lookup_name_unknown _ _ Hc).
      cbn [mbind outcome_bind]. split; [|by right]. by intros (? & _). }
  assert ((if decide (i = 0%nat)
           then lookup_name nav current ≫= λ name, Ok (dirs ++ ["1. Start at " +:+ name])
           else Ok dirs) =
          Ok (if decide (i = 0%nat) then dirs ++ ["1. Start at " +:+ cname] else dirs))
    as ->.
  { apply lookup_name_Ok in Hc. destruct (decide (i = 0%nat)); [by rewrite Hc|done]. }
  cbn [mbind outcome_bind].
  destruct (node_names nav !! next_node) as [nname|] eqn:Hn.
  2:{ rewrite lookup_name_unknown by (intros [? ?]; congruence).
      cbn [mbind outcome_bind]. split; [|by right].
      intros (_ & [? ?] & _). congruence. }
  apply lookup_name_Ok in Hn. rewrite Hn. apply lookup_name_Ok in Hn.
  cbn [mbind outcome_bind].
  match goal with
  | |- match directions_loop nav len_path (S i) (next_node :: rest) ?t ?ds with _ => _ end =>
      pose proof (IH (S i) t ds) as Hrec;
      destruct (directions_loop nav len_path (S i) (next_node :: rest) t ds) as [lines|e|]
  end.
  - cbn [drivable]. split_and!; [by eexists|by eexists|by eexists|].
    apply Hrec. intros _. by eexists.
  - destruct Hrec as [Hnot He]; [intros _; by eexists|]. split; [|done].
    intros (_ & _ & _ & Hrest). by apply Hnot.
  - apply Hrec. intros _. by eexists.
Qed.

(** X9.  [get_turn_by_turn_directions] returns exactly for the paths
    whose consecutive nodes are named and joined by a road; for any other
    path it raises [TypeError] (a pair without a road: [total_distance +=
    None]) or [KeyError] (a node without a name). *)
Theorem directions_outcome nav path :
  match get_turn_by_turn_directions nav path with
  | Ok _ => drivable nav path
  | Raise e => ¬ drivable nav path ∧ (e = TypeError ∨ e = KeyError)
  | OutOfFuel => False
  end.
Proof.
  unfold get_turn_by_turn_directions.
  destruct (length path <? 2)%nat eqn:Hlen.
  - apply Nat.ltb_lt in Hlen. destruct path as [|a [|b path]]; [done|done|simpl in Hlen; lia].
  - by apply directions_loop_outcome.
Qed.

Lemma route_known nav s p v W :
  well_formed nav → known nav s → route (graph nav) s p v W → known nav v.
Proof.
  intros [Hnamed Hclosed] Hs. induction 1 as [|p x y w W _ _ Hroad]; [done|].
  apply named_known; [done|]. by eapply closed_neighbour.
Qed.

Lemma drivable_snoc nav p x y :
  drivable nav (p ++ [x]) → known nav x → known nav y →
  is_Some (find_road (neighbours (graph nav) x) y) →
  drivable nav (p ++ [x; y]).
Proof.
  intros Hp Hx Hy Hroad. induction p as [|a p IH]; [done|].
  destruct p as [|b p].
  - destruct Hp as (? & ? & ? & _). cbn [app drivable]. done.
  - destruct Hp as (? & ? & ? & Hp). specialize (IH Hp).
    change ((a :: b :: p) ++ [x; y]) with (a :: b :: (p ++ [x; y])).
    change ((b :: p) ++ [x; y]) with (b :: (p ++ [x; y])) in IH.
    cbn [drivable]. done.
Qed.

Lemma route_drivable nav s p v W :
  well_formed nav → known nav s → route (graph nav) s p v W → drivable nav p.
Proof.
  intros Hwf Hs. induction 1 as [|p x y w W Hr IH Hroad]; [done|].
  destruct (route_ends _ _ _ _ _ Hr) as [_ Hlast].
  apply last_Some in Hlast as [p' ->].
  rewrite <- app_assoc. apply drivable_snoc; [done| | |].
  - by eapply route_known.
  - eapply route_known; [done..|]. by eapply route_road.
  - by eapply find_road_is_Some.
Qed.

Lemma directions_on_route nav src dst p W :
  well_formed nav → known nav src → route (graph nav) src p dst W → NoDup p →
  ∃ lines, get_turn_by_turn_directions nav p = Ok lines ∧
           length lines = (if decide (src = dst) then 0 else length p)%nat.
Proof.
  intros Hwf Hsrc Hroute Hnd.
  pose proof (route_drivable _ _ _ _ _ Hwf Hsrc Hroute) as Hdrv.
  destruct (route_ends _ _ _ _ _ Hroute) as [Hhead Hlast].
  unfold get_turn_by_turn_directions.
  destruct (length p <? 2)%nat eqn:Hlen.
  - exists []. split; [done|]. apply Nat.ltb_lt in Hlen.
    destruct p as [|a [|b p]]; [done| |simpl in Hlen; lia].
    simpl in Hhead, Hlast. rewrite decide_True by congruence. done.
  - apply Nat.ltb_ge in Hlen.
    rewrite (directions_loop_spec nav p p 0 0%Q [] eq_refl Hdrv (fun _ => Hlen)).
    eexists. split; [reflexivity|].
    rewrite decide_True by reflexivity.
    rewrite !length_app, length_fmap, length_seq. cbn [length].
    destruct (decide (src = dst)) as [Heq|Hne]; [|lia].
    exfalso. destruct p as [|a [|b p]]; [simpl in Hlen; lia..|].
    simpl in Hhead. injection Hhead as Ha.
    apply NoDup_cons in Hnd as [Hnot _]. apply Hnot.
    change (last (b :: p) = Some dst) in Hlast.
    apply last_Some_elem_of. congruence.
Qed.

(** X10.  Directions never fail on a path of the engine: on a well-formed
    navigator, for every successful result of [dijkstra],
    [get_turn_by_turn_directions] returns, with as many lines as the path
    has nodes (none when start and destination coincide). *)
Theorem directions_of_dijkstra nav src dst r :
  well_formed nav → dijkstra nav src dst = Ok r → success r = true →
  ∃ lines, get_turn_by_turn_directions nav (path r) = Ok lines ∧
           length lines = (if decide (src = dst) then 0 else length (path r))%nat.
Proof.
  intros Hwf Hr Hs.
  destruct (dijkstra_Ok_known _ _ _ _ Hr) as [Hsrc _].
  destruct (dijkstra_result _ _ _ _ Hr)
    as [(_ & Hnd & W & d & Hroute & _)|(? & _)]; [|congruence].
  by apply (directions_on_route nav src dst (path r) W).
Qed.

Lemma directions_of_dijkstra_witness :
  well_formed setup_city_map ∧
  ∃ r, dijkstra setup_city_map 0 11 = Ok r ∧ success r = true ∧
    ∃ lines, get_turn_by_turn_directions setup_city_map (path r) = Ok lines ∧
             length lines = (if decide (0 = 11) then 0 else length (path r))%nat.
Proof.
  assert (well_formed setup_city_map) as Hwf by compute_done.
  assert (∃ r, dijkstra setup_city_map 0 11 = Ok r ∧ success r = true) as (r & Hr & Hs).
  { eexists. split; [vm_compute; reflexivity|]. done. }
  split; [exact Hwf|]. exists r. split; [exact Hr|]. split; [exact Hs|].
  exact (directions_of_dijkstra setup_city_map 0 11 r Hwf Hr Hs).
Defined.

(** ** Counting road segments *)

Lemma road_entries_insert_new g n roads :
  g !! n = None → road_entries (<[n := roads]> g) = (length roads + road_entries g)%nat.
Proof.
  intros Hn. unfold road_entries. by rewrite (map_to_list_insert g n roads Hn).
Qed.

Lemma road_entries_append g n entry :
  road_entries (append_road g n entry) = S (road_entries g).
Proof.
  unfold append_road, neighbours. destruct (g !! n) as [roads|] eqn:Hn; simpl.
  - rewrite <- insert_delete_eq.
    rewrite road_entries_insert_new by apply lookup_delete_eq.
    rewrite <- (insert_delete_id g n roads Hn) at 2.
    rewrite road_entries_insert_new by apply lookup_delete_eq.
    rewrite length_app. simpl. lia.
  - by rewrite road_entries_insert_new.
Qed.

Lemma road_entries_add_roads nav roads :
  road_entries (graph (add_roads nav roads)) =
  (road_entries (graph nav) + 2 * length roads)%nat.
Proof.
  revert nav. induction roads as [|[[a b] w] roads IH]; intros nav.
  - simpl. lia.
  - change (add_roads nav ((a, b, w) :: roads))
      with (add_roads (add_road nav a b w) roads).
    rewrite IH. cbn [graph add_road length]. unfold add_road_graph.
    rewrite !road_entries_append. lia.
Qed.

(** X11.  The number of road segments that [analyze_network_connectivity]
    reports, half the sum of the lengths of the adjacency lists, is the
    number of [add_road] calls that built the map; a call adds exactly
    two adjacency entries, also for a road from a node to itself or for a
    road that is already there. *)
Theorem total_connections_add_roads names roads :
  total_connections (add_roads {| graph := ∅; node_names := names |} roads)
    = length roads
  ∧ ∀ nav a b w,
      road_entries (graph (add_road nav a b w)) = (road_entries (graph nav) + 2)%nat.
Proof.
  split.
  - unfold total_connections. rewrite road_entries_add_roads. cbn [graph].
    assert (road_entries (∅ : gmap Z (list (Z * Q))) = 0%nat) as ->.
    { unfold road_entries. by rewrite map_to_list_empty. }
    rewrite Nat.add_0_l, Nat.mul_comm. by apply Nat.div_mul.
  - intros nav a b w. simpl. unfold add_road_graph.
    rewrite !road_entries_append. lia.
Qed.

(** ** Longer roads, longer routes *)

Lemma dominates_route g0 g s p v W :
  dominates g0 g → route g s p v W → ∃ W0, route g0 s p v W0 ∧ (W0 <= W)%Q.
Proof.
  intros Hdom. induction 1 as [|p x y w W _ (W0 & IH & HW) Hroad].
  - exists 0%Q. split; [constructor|lra].
  - destruct (Hdom _ _ _ Hroad) as (w0 & Hroad0 & Hw).
    exists (W0 + w0)%Q. split; [by apply route_road with x|lra].
Qed.

(** X12.  Making roads longer, or closing some, never shortens a route:
    if every road of a second map runs beside a road of the first that is
    no longer, and the roads of the first have non-negative lengths, then
    a search that succeeds on the second map succeeds on the first with a
    distance that is no larger. *)
Theorem dijkstra_monotone nav0 nav src dst r0 r :
  nonneg_roads (graph nav0) → dominates (graph nav0) (graph nav) →
  dijkstra nav0 src dst = Ok r0 → dijkstra nav src dst = Ok r → success r = true →
  success r0 = true ∧
  ∃ d0 d, distance r0 = Fin d0 ∧ distance r = Fin d ∧ (d0 <= d)%Q.
Proof.
  intros Hg Hdom H0 H Hs.
  destruct (dijkstra_result _ _ _ _ H)
    as [(_ & _ & W & d & Hroute & Hd & HW & _)|(? & _)]; [|congruence].
  destruct (dominates_route _ _ _ _ _ _ Hdom Hroute) as (W0 & Hroute0 & HW0).
  destruct (dijkstra_result _ _ _ _ H0)
    as [(Hs0 & _ & W' & d0 & _ & Hd0 & _ & Hopt)|(_ & _ & _ & Hno)].
  - split; [done|]. exists d0, d. split_and!; [done..|].
    pose proof (Hopt Hg _ _ Hroute0). lra.
  - destruct Hno. exists (path r), W0. exact Hroute0.
Qed.

(** ** Traffic *)

Lemma elem_of_retime roads target new_dist v w' :
  (v, w') ∈ retime roads target new_dist ↔
  ∃ w, (v, w) ∈ roads ∧ w' = if decide (v = target) then new_dist else w.
Proof.
  unfold retime. rewrite list_elem_of_fmap. split.
  - intros ([n d] & Heq & Hin). simpl in Heq.
    destruct (decide (n = target)) as [Hn|Hn]; injection Heq as -> ->.
    + exists d. by rewrite decide_True.
    + exists d. by rewrite decide_False.
  - intros (w & Hin & ->). exists (v, w). split; [|done]. simpl.
    by destruct (decide (v = target)).
Qed.

Lemma neighbours_insert g n roads u :
  neighbours (<[n := roads]> g) u = if decide (u = n) then roads else neighbours g u.
Proof.
  unfold neighbours. destruct (decide (u = n)) as [->|Hu].
  - by rewrite lookup_insert_eq.
  - by rewrite lookup_insert_ne.
Qed.

(** What [slow_road] leaves in the adjacency lists: the same neighbours
    at the same places, the roads between the two nodes with the new
    length. *)
Lemma elem_of_neighbours_slow_road nav node nb orig m u v w' :
  (v, w') ∈ neighbours (graph (slow_road nav node nb orig m)) u ↔
  ∃ w, (v, w) ∈ neighbours (graph nav) u ∧
       w' = if decide ((u = node ∧ v = nb) ∨ (u = nb ∧ v = node))
            then (orig * m)%Q else w.
Proof.
  cbn [graph slow_road]. rewrite !neighbours_insert.
  destruct (decide (u = nb)) as [->|Hunb].
  - rewrite elem_of_retime. destruct (decide (nb = node)) as [->|Hne].
    + split.
      * intros (w1 & (w & Hin & ->)%elem_of_retime & ->). exists w. split; [done|].
        repeat case_decide; naive_solver.
      * intros (w & Hin & ->). exists (if decide (v = node) then (orig * m)%Q else w).
        split; [apply elem_of_retime; by exists w|].
        repeat case_decide; naive_solver.
    + split.
      * intros (w & Hin & ->). exists w. split; [done|].
        repeat case_decide; naive_solver.
      * intros (w & Hin & ->). exists w. split; [done|].
        repeat case_decide; naive_solver.
  - destruct (decide (u = node)) as [->|Hun].
    + rewrite elem_of_retime. split.
      * intros (w & Hin & ->). exists w. split; [done|].
        repeat case_decide; naive_solver.
      * intros (w & Hin & ->). exists w. split; [done|].
        repeat case_decide; naive_solver.
    + split.
      * intros Hin. exists w'. split; [done|]. rewrite decide_False; naive_solver.
      * intros (w & Hin & ->). rewrite decide_False; naive_solver.
Qed.

Lemma slow_road_is_Some nav node nb orig m n :
  is_Some (graph (slow_road nav node nb orig m) !! n) ↔
  n = node ∨ n = nb ∨ is_Some (graph nav !! n).
Proof.
  cbn [graph slow_road]. rewrite !lookup_insert_is_Some'. naive_solver.
Qed.

Lemma slow_more_or_equal orig m : (0 <= orig)%Q → (1 <= m)%Q → (orig <= orig * m)%Q.
Proof. intros Ho Hm. nra. Qed.

(** What the loop over the affected edges keeps, relative to the map [nav0]
    it started from. *)
Lemma slow_roads_invariants nav0 m affected nav :
  closed (graph nav0) → symmetric (graph nav0) → nonneg_roads (graph nav0) →
  (1 <= m)%Q →
  Forall (fun e : Z * Z * Q => (e.1.2, e.2) ∈ neighbours (graph nav0) e.1.1) affected →
  slowed nav0 nav →
  slowed nav0 (fold_left (fun nav e => slow_road nav e.1.1 e.1.2 e.2 m) affected nav).
Proof.
  intros Hclosed Hsym Hg Hm Haff. revert nav.
  induction affected as [|[[node nb] orig] affected IH]; intros nav Hinv; [exact Hinv|].
  apply Forall_cons in Haff as [Hedge Haff]. simpl in Hedge.
  cbn [fold_left]. apply (IH Haff). clear IH.
  destruct Hinv as (Hdom & Hsame & Hkeys & Hnames & Hsymm).
  pose proof (nonneg_road _ _ _ _ Hg Hedge) as Horig.
  pose proof (slow_more_or_equal orig m Horig Hm) as Hslow.
  split_and!.
  - intros u v w' (w & Hin & ->)%elem_of_neighbours_slow_road.
    case_decide as Hcond; [|by apply Hdom].
    exists orig. split; [|done].
    destruct Hcond as [[-> ->]|[-> ->]]; [done|by apply Hsym].
  - intros u v. rewrite Hsame. split.
    + intros [w Hin]. eexists. apply elem_of_neighbours_slow_road. by exists w.
    + intros [w' (w & Hin & _)%elem_of_neighbours_slow_road]. by exists w.
  - intros n. rewrite slow_road_is_Some, Hkeys. split; [|auto].
    intros [->|[->|?]]; [| |done].
    + apply elem_of_neighbours in Hedge as (roads & Hroads & _). by eexists.
    + by eapply closed_neighbour.
  - done.
  - intros u v w' (w & Hin & ->)%elem_of_neighbours_slow_road.
    apply elem_of_neighbours_slow_road. exists w. split; [by apply Hsymm|].
    repeat case_decide; naive_solver.
Qed.

Lemma apply_traffic_invariants nav0 m affected :
  well_formed nav0 → symmetric (graph nav0) → nonneg_roads (graph nav0) →
  (1 <= m)%Q →
  Forall (fun e : Z * Z * Q => (e.1.2, e.2) ∈ neighbours (graph nav0) e.1.1) affected →
  slowed nav0 (apply_traffic nav0 m affected).
Proof.
  intros [Hnamed Hclosed] Hsym Hg Hm Haff. unfold apply_traffic.
  assert (slowed nav0 nav0) as Hstart.
  { split_and!; [|done..]. intros u v w Hin. exists w. split; [done|lra]. }
  destruct (Qeq_bool m 1); [exact Hstart|].
  by apply slow_roads_invariants.
Qed.

Lemma same_roads_reachable g g' s v :
  (∀ u x, (∃ w, (x, w) ∈ neighbours g u) → (∃ w, (x, w) ∈ neighbours g' u)) →
  reachable g s v → reachable g' s v.
Proof.
  intros Hsame (p & W & Hroute).
  induction Hroute as [|p x y w W _ (p' & W' & IH) Hroad].
  - exists [s], 0%Q. constructor.
  - destruct (Hsame x y) as [w' Hroad']; [by exists w|].
    exists (p' ++ [y]), (W' + w')%Q. by apply route_road with x.
Qed.

(** X13.  Traffic never shortens a route.  On a well-formed, symmetric
    map with roads of non-negative length, after the lengths of sampled
    edges have been multiplied by a factor of at least 1 as
    [simulate_traffic_scenarios] does, the searches on the original and
    on the modified map both return, they succeed for the same pairs of
    named nodes, and the distance with traffic is not smaller than the
    normal one. *)
Theorem traffic_never_shortens nav m affected src dst :
  well_formed nav → symmetric (graph nav) → nonneg_roads (graph nav) →
  (1 <= m)%Q →
  Forall (fun e : Z * Z * Q => (e.1.2, e.2) ∈ neighbours (graph nav) e.1.1) affected →
  known nav src → known nav dst →
  ∃ normal traffic,
    dijkstra nav src dst = Ok normal ∧
    dijkstra (apply_traffic nav m affected) src dst = Ok traffic ∧
    success traffic = success normal ∧
    (success traffic = true →
     ∃ d0 d, distance normal = Fin d0 ∧ distance traffic = Fin d ∧ (d0 <= d)%Q).
Proof.
  intros Hwf Hsym Hg Hm Haff Hsrc Hdst.
  destruct (apply_traffic_invariants nav m affected Hwf Hsym Hg Hm Haff)
    as (Hdom & Hsame & Hkeys & Hnames & _).
  set (nav' := apply_traffic nav m affected) in *.
  assert (well_formed nav') as Hwf'.
  { destruct Hwf as [Hnamed Hclosed]. split.
    - intros n roads Hn. unfold known. rewrite Hnames.
      apply named_known; [done|]. apply Hkeys. by eexists.
    - apply closed_iff. intros u v w' Hin. apply Hkeys.
      destruct (proj2 (Hsame u v)) as [w Hin0]; [by exists w'|].
      by eapply closed_neighbour. }
  destruct (dijkstra_returns nav src dst) as [normal Hnormal]; [done..|].
  destruct (dijkstra_returns nav' src dst) as [traffic Htraffic];
    [done|unfold known; by rewrite Hnames..|].
  exists normal, traffic. split; [done|]. split; [done|].
  assert (success traffic = success normal) as Hsucc.
  { destruct (success traffic) eqn:Ht, (success normal) eqn:Hn; try done.
    - destruct (dijkstra_failure_unreachable _ _ _ _ Hnormal Hn).
      apply (same_roads_reachable (graph nav')); [intros u x; apply Hsame|].
      by eapply dijkstra_success_reachable.
    - destruct (dijkstra_failure_unreachable _ _ _ _ Htraffic Ht).
      apply (same_roads_reachable (graph nav)); [intros u x; apply Hsame|].
      by eapply dijkstra_success_reachable. }
  split; [done|]. intros Ht.
  destruct (dijkstra_result _ _ _ _ Htraffic)
    as [(_ & _ & W & d & Hroute & Hd & HW & _)|(? & _)]; [|congruence].
  destruct (dominates_route _ _ _ _ _ _ Hdom Hroute) as (W0 & Hroute0 & HW0).
  destruct (dijkstra_result _ _ _ _ Hnormal)
    as [(_ & _ & W' & d0 & _ & Hd0 & _ & Hopt)|(? & _)]; [|congruence].
  exists d0, d. split_and!; [done..|].
  pose proof (Hopt Hg _ _ Hroute0). lra.
Qed.

Lemma traffic_never_shortens_witness :
  ∃ normal traffic,
    dijkstra setup_city_map 0 11 = Ok normal ∧
    dijkstra (apply_traffic setup_city_map 2.5 [(1, 7, 3.2%Q); (8, 11, 1.5%Q)]) 0 11
      = Ok traffic ∧
    success traffic = success normal ∧
    (success traffic = true →
     ∃ d0 d, distance normal = Fin d0 ∧ distance traffic = Fin d ∧ (d0 <= d)%Q).
Proof.
  destruct setup_city_map_well_formed as (Hwf & Hg & _ & Hsym).
  apply (traffic_never_shortens setup_city_map 2.5
           [(1, 7, 3.2%Q); (8, 11, 1.5%Q)] 0 11 Hwf Hsym Hg).
  - vm_compute. discriminate.
  - repeat constructor; apply list_elem_of_In; vm_compute; tauto.
  - vm_compute. by eexists.
  - vm_compute. by eexists.
Defined.

Lemma dijkstra_monotone_witness :
  ∃ r0 r,
    dijkstra setup_city_map 0 11 = Ok r0 ∧
    dijkstra (apply_traffic setup_city_map 3 [(8, 11, 1.5%Q)]) 0 11 = Ok r ∧
    success r = true ∧ success r0 = true ∧
    ∃ d0 d, distance r0 = Fin d0 ∧ distance r = Fin d ∧ (d0 <= d)%Q.
Proof.
  destruct setup_city_map_well_formed as (Hwf & Hg & _ & Hsym).
  assert (dominates (graph setup_city_map)
            (graph (apply_traffic setup_city_map 3 [(8, 11, 1.5%Q)]))) as Hdom.
  { apply apply_traffic_invariants; [done..| |].
    - vm_compute. discriminate.
    - repeat constructor; apply list_elem_of_In; vm_compute; tauto. }
  assert (∃ r0, dijkstra setup_city_map 0 11 = Ok r0) as [r0 H0].
  { eexists. vm_compute. reflexivity. }
  assert (∃ r, dijkstra (apply_traffic setup_city_map 3 [(8, 11, 1.5%Q)]) 0 11 = Ok r
               ∧ success r = true) as (r & H & Hs).
  { eexists. split; [vm_compute; reflexivity|]. done. }
  exists r0, r. split; [exact H0|]. split; [exact H|]. split; [exact Hs|].
  exact (dijkstra_monotone _ _ 0 11 r0 r Hg Hdom H0 H Hs).
Defined.

(** ** The explored nodes *)

Section exploration.
Variable nav : GPSNavigator.
Variable s : Z.
Local Abbreviation g := (graph nav).

Lemma relax_road_entries st c cd road st' :
  relax_road nav c cd road st = Ok st' →
  ∀ entry, entry ∈ priority_queue st' →
    entry ∈ priority_queue st ∨ entry = ((cd + road.2)%Q, road.1).
Proof.
  unfold relax_road. destruct road as [v w].
  destruct (decide (v ∈ visited st)); [intros [= <-]; auto|].
  destruct (distances st !! v) as [best|]; [|done].
  destruct (lt_xdist (cd + w) best); [|intros [= <-]; auto].
  destruct (lookup_name nav v); cbn [mbind outcome_bind]; [|done..].
  intros [= <-] entry. cbn [priority_queue]. unfold heappush.
  intros [->|?]%elem_of_cons; auto.
Qed.

Lemma relax_entries roads st c cd st' :
  relax nav c cd roads st = Ok st' →
  ∀ entry, entry ∈ priority_queue st' →
    entry ∈ priority_queue st ∨ ∃ v w, (v, w) ∈ roads ∧ entry = ((cd + w)%Q, v).
Proof.
  revert st. induction roads as [|[v w] roads IH]; intros st; cbn [relax].
  - intros [= <-]. auto.
  - intros (st1 & H1 & H2)%bind_Ok entry Hin.
    destruct (IH _ H2 _ Hin) as [Hin1|(v' & w' & Hroad & ->)].
    + destruct (relax_road_entries _ _ _ _ _ H1 _ Hin1) as [?| ->]; [by left|].
      right. exists v, w. split; [by left|done].
    + right. exists v', w'. split; [by right|done].
Qed.

(** With roads of non-negative length the nodes are visited in the order
    of their labels: when the destination is reached, no visited node has
    a larger label. *)
Lemma search_loop_order e fuel st st' :
  nonneg_roads g → search_inv g s st → settled st → e ∉ visited st →
  search_loop nav e fuel st = Ok st' →
  e ∈ visited st' →
  ∀ u du de, u ∈ visited st' → distances st' !! u = Some (Fin du) →
    distances st' !! e = Some (Fin de) → (du <= de)%Q.
Proof.
  intros Hg. revert st. induction fuel as [|fuel IH]; intros st Hinv Hset He;
    cbn [search_loop]; [done|].
  destruct (heappop (priority_queue st)) as [[[d c] queue]|] eqn:Hpop.
  2:{ by intros [= <-] Hvis. }
  assert ((d, c) ∈ priority_queue st) as Hin
    by (apply (heappop_elem _ _ _ _ Hpop); by left).
  destruct (decide (c ∈ visited st)) as [Hc|Hc].
  { apply IH; [|intros u du d' v Hu Hdu Hin'|done].
    - by apply (skip_spec nav s st _ d c queue).
    - apply (Hset u du d' v); [done..|].
      apply (heappop_elem _ _ _ _ Hpop). by right. }
  destruct (lookup_name nav c) as [name|x|] eqn:Hname; cbn [mbind outcome_bind];
    [|done..].
  set (st1 := explore st c d queue name).
  destruct (visit_spec nav s st st1 d c queue) as (Hinv1 & dc & Hdc & Hdcd); [done..|].
  assert (∀ u du, u ∈ visited st1 → distances st1 !! u = Some (Fin du) → (du <= d)%Q)
    as Hmax.
  { intros u du [->%elem_of_singleton|Hu]%elem_of_union Hdu.
    - change (distances st1) with (distances st) in Hdu.
      rewrite Hdc in Hdu. injection Hdu as <-. lra.
    - by apply (Hset u du d c). }
  destruct (decide (c = e)) as [<-|Hce].
  { rewrite Hname. cbn [mbind outcome_bind]. intros [= <-] _ u du de Hu Hdu Hde.
    change (distances st !! c = Some (Fin de)) in Hde.
    rewrite Hdc in Hde. injection Hde as <-.
    specialize (Hmax u du Hu Hdu). lra. }
  assert (c ∈ visited st1) as Hc1.
  { apply elem_of_union_l. by apply elem_of_singleton. }
  pose proof (relax_spec nav s (neighbours g c) st1 c dc d Hinv1 Hc1 Hdc Hdcd) as Hrelax.
  destruct (relax nav c d (neighbours g c) st1) as [st2|x|] eqn:Hst2;
    cbn [mbind outcome_bind]; [|done..].
  destruct Hrelax as (Hinv2 & (Hv & Hl & _) & _); [done|].
  apply IH; [done| |].
  - intros u du d' v Hu Hdu Hin'. rewrite Hv in Hu. rewrite Hl in Hdu by done.
    specialize (Hmax u du Hu Hdu).
    destruct (relax_entries _ _ _ _ _ Hst2 _ Hin') as [Hold|(v' & w & Hroad & Heq)].
    + assert ((d', v) ∈ priority_queue st) as Hold'
        by (apply (heappop_elem _ _ _ _ Hpop); by right).
      pose proof (heappop_least _ _ _ _ _ _ Hpop Hold'). lra.
    + injection Heq as -> ->. pose proof (nonneg_road _ _ _ _ Hg Hroad). lra.
  - rewrite Hv. intros [->%elem_of_singleton|?]%elem_of_union; done.
Qed.

Lemma search_order e fuel sn en st' :
  nonneg_roads g → lookup_name nav s = Ok sn →
  search_loop nav e fuel (initial_state nav s sn en) = Ok st' →
  e ∈ visited st' →
  ∀ u du de, u ∈ visited st' → distances st' !! u = Some (Fin du) →
    distances st' !! e = Some (Fin de) → (du <= de)%Q.
Proof.
  intros Hg Hsn. destruct fuel as [|fuel]; [done|]. cbn [search_loop].
  change (heappop (priority_queue (initial_state nav s sn en)))
    with (Some ((0%Q, s), @nil (Q * Z))).
  destruct (decide (s ∈ visited (initial_state nav s sn en))) as [Hs|_].
  { by apply elem_of_empty in Hs. }
  rewrite Hsn. cbn [mbind outcome_bind].
  destruct (started_spec nav s sn en) as (Hinv1 & _ & _).
  set (st1 := explore (initial_state nav s sn en) s 0 [] sn) in *.
  assert (∀ u, u ∈ visited st1 → u = s) as Honly.
  { intros u [->%elem_of_singleton|Hu%elem_of_empty]%elem_of_union; done. }
  assert (distances st1 !! s = Some (Fin 0)) as Hd1
    by apply (inv_start_distance _ _ _ Hinv1).
  destruct (decide (s = e)) as [<-|Hse].
  { rewrite Hsn. cbn [mbind outcome_bind]. intros [= <-] _ u du de Hu Hdu Hde.
    apply Honly in Hu as ->.
    change (distances st1 !! s = Some (Fin du)) in Hdu.
    change (distances st1 !! s = Some (Fin de)) in Hde.
    assert (du = de) as -> by congruence. lra. }
  assert (s ∈ visited st1) as Hs1 by apply (inv_start_visited _ _ _ Hinv1).
  pose proof (relax_spec nav s (neighbours g s) st1 s 0 0 Hinv1 Hs1 Hd1 ltac:(done))
    as Hrelax.
  destruct (relax nav s 0 (neighbours g s) st1) as [st2|x|] eqn:Hst2;
    cbn [mbind outcome_bind]; [|done..].
  destruct Hrelax as (Hinv2 & (Hv & Hl & _) & _); [done|].
  apply search_loop_order; [done..| |].
  - intros u du d v Hu Hdu Hin. rewrite Hv in Hu. rewrite Hl in Hdu by done.
    apply Honly in Hu as ->. rewrite Hd1 in Hdu. injection Hdu as <-.
    destruct (relax_entries _ _ _ _ _ Hst2 _ Hin) as [Hold|(v' & w & Hroad & Heq)].
    + by apply elem_of_nil in Hold.
    + injection Heq as -> ->. pose proof (nonneg_road _ _ _ _ Hg Hroad). lra.
  - rewrite Hv. intros Hes. apply Honly in Hes. done.
Qed.

(** The state the main loop stopped in, behind a returned result. *)
Lemma dijkstra_final_state e r :
  dijkstra nav s e = Ok r →
  ∃ sn en st,
    lookup_name nav s = Ok sn ∧
    search_loop nav e (search_fuel nav) (initial_state nav s sn en) = Ok st ∧
    search_inv g s st ∧ (nonneg_roads g → optimal g s st) ∧
    visited_nodes r = visited st ∧
    match success r with
    | true => e ∈ visited st ∧ distances st !! e = Some (distance r) ∧
              ∃ l, path r = reverse l ∧ ∀ x, x ∈ l → x ∈ visited st
    | false => (e ∉ visited st) ∧ priority_queue st = [] ∧ relaxed_except g st None
    end.
Proof.
  unfold dijkstra, dijkstra_fuel. intros H.
  apply bind_Ok in H as (sn & Hsn & H). apply bind_Ok in H as (en & Hen & H).
  apply bind_Ok in H as (st & Hst & H).
  pose proof (search_spec nav s e (search_fuel nav) sn en Hsn) as Hspec.
  rewrite Hst in Hspec. destruct Hspec as (Hinv & Hopt & Hexit).
  exists sn, en, st. split; [done|]. split; [done|]. split; [done|]. split; [done|].
  destruct (decide (e ∈ visited st)) as [Hvis|Hvis].
  - destruct (inv_chains _ _ _ Hinv e Hvis) as (l & Hl & Hlast & Hnd & Hsub).
    rewrite (walk_back_chain _ _ _ l) in H
      by (done || by apply (back_chain_length _ e)).
    cbn [mbind outcome_bind app] in H.
    destruct (chain_route nav s st e l Hinv Hl Hlast) as (W & de & Hroute & Hde & HW).
    pose proof Hlast as Hlast'.
    apply last_Some in Hlast' as [l' Heq]. rewrite Heq, reverse_snoc in H.
    cbn beta iota in H. rewrite decide_True in H by done. rewrite Hde in H. injection H as <-.
    cbn [visited_nodes success distance path]. split; [done|]. split; [done|].
    split; [done|]. exists l. split; [|done]. by rewrite Heq, reverse_snoc.
  - destruct Hexit as [?|[Hq Hrel]]; [done|].
    assert (previous st !! e = None) as Hprev.
    { destruct (previous st !! e) as [u|] eqn:Hu; [|done].
      destruct (inv_links _ _ _ Hinv e u Hu) as (_ & w & du & de & _ & _ & Hde & _).
      destruct (inv_frontier _ _ _ Hinv e de Hvis Hde) as (d & Hin & _).
      rewrite Hq in Hin. by apply elem_of_nil in Hin. }
    rewrite (walk_back_chain _ _ _ [e] [] (back_root _ e Hprev)) in H
      by (cbn [length]; lia).
    cbn [mbind outcome_bind app] in H. change (reverse [e]) with [e] in H.
    cbn beta iota in H. rewrite decide_False in H.
    2:{ intros ->. apply Hvis, (inv_start_visited _ _ _ Hinv). }
    injection H as <-. cbn [visited_nodes success]. done.
Qed.

End exploration.

(** X14.  The set of explored nodes of a returned result: it holds the
    start, every node of the returned path and only nodes that can be
    reached from the start, and it holds the destination exactly when the
    search succeeded. *)
Theorem dijkstra_visited_nodes nav src dst r :
  dijkstra nav src dst = Ok r →
  src ∈ visited_nodes r ∧
  (∀ v, v ∈ visited_nodes r → reachable (graph nav) src v) ∧
  (∀ x, x ∈ path r → x ∈ visited_nodes r) ∧
  (dst ∈ visited_nodes r ↔ success r = true).
Proof.
  intros Hr.
  destruct (dijkstra_final_state nav src dst r Hr)
    as (sn & en & st & _ & _ & Hinv & _ & -> & Hend).
  split; [apply (inv_start_visited _ _ _ Hinv)|]. split.
  { intros v Hv. destruct (inv_chains _ _ _ Hinv v Hv) as (l & Hl & Hlast & _).
    destruct (chain_route nav src st v l Hinv Hl Hlast) as (W & _ & Hroute & _).
    by exists (reverse l), W. }
  destruct (success r) eqn:Hs.
  - destruct Hend as (Hvis & _ & l & Hpath & Hsub).
    split; [|done]. intros x. rewrite Hpath, elem_of_reverse. apply Hsub.
  - destruct Hend as (Hvis & _ & _).
    destruct (dijkstra_result _ _ _ _ Hr) as [(? & _)|(_ & Hpath & _)]; [congruence|].
    split; [rewrite Hpath; by intros x ?%elem_of_nil|].
    split; [done|congruence].
Qed.

Lemma dijkstra_visited_nodes_witness :
  ∃ r, dijkstra setup_city_map 0 9 = Ok r ∧
    0 ∈ visited_nodes r ∧
    (∀ v, v ∈ visited_nodes r → reachable (graph setup_city_map) 0 v) ∧
    (∀ x, x ∈ path r → x ∈ visited_nodes r) ∧
    (9 ∈ visited_nodes r ↔ success r = true).
Proof.
  assert (∃ r, dijkstra setup_city_map 0 9 = Ok r) as [r Hr].
  { eexists. vm_compute. reflexivity. }
  exists r. split; [exact Hr|].
  exact (dijkstra_visited_nodes setup_city_map 0 9 r Hr).
Defined.

(** X15.  The search stops early and explores only what lies nearer than
    the destination.  With roads of non-negative length, every node
    explored by a successful search has a route from the start that is no
    longer than the reported distance, and that route is a shortest
    one. *)
Theorem dijkstra_explores_nearer nav src dst r :
  nonneg_roads (graph nav) →
  dijkstra nav src dst = Ok r → success r = true →
  ∃ d, distance r = Fin d ∧
    ∀ v, v ∈ visited_nodes r →
      ∃ p W, route (graph nav) src p v W ∧ (W <= d)%Q ∧
             ∀ p' W', route (graph nav) src p' v W' → (W <= W')%Q.
Proof.
  intros Hg Hr Hs.
  destruct (dijkstra_final_state nav src dst r Hr)
    as (sn & en & st & Hsn & Hst & Hinv & Hopt & -> & Hend).
  rewrite Hs in Hend. destruct Hend as (Hvis & Hd & _).
  destruct (dijkstra_result _ _ _ _ Hr) as [(_ & _ & _ & d & _ & Hdist & _)|(? & _)];
    [|congruence].
  exists d. split; [done|]. rewrite Hdist in Hd.
  intros v Hv. destruct (inv_chains _ _ _ Hinv v Hv) as (l & Hl & Hlast & _).
  destruct (chain_route nav src st v l Hinv Hl Hlast) as (W & dv & Hroute & Hdv & HW).
  exists (reverse l), W. split; [done|].
  pose proof (search_order nav src dst _ sn en st Hg Hsn Hst Hvis v dv d Hv Hdv Hd).
  split; [lra|]. intros p' W' Hroute'.
  destruct (Hopt Hg v p' W' Hv Hroute') as (dv' & Hdv' & Hle).
  rewrite Hdv in Hdv'. injection Hdv' as <-. lra.
Qed.

Lemma dijkstra_explores_nearer_witness :
  ∃ r, dijkstra setup_city_map 0 7 = Ok r ∧ success r = true ∧
    ∃ d, distance r = Fin d ∧
      ∀ v, v ∈ visited_nodes r →
        ∃ p W, route (graph setup_city_map) 0 p v W ∧ (W <= d)%Q ∧
               ∀ p' W', route (graph setup_city_map) 0 p' v W' → (W <= W')%Q.
Proof.
  destruct setup_city_map_well_formed as (_ & Hg & _).
  assert (∃ r, dijkstra setup_city_map 0 7 = Ok r ∧ success r = true) as (r & Hr & Hs).
  { eexists. split; [vm_compute; reflexivity|]. done. }
  exists r. split; [exact Hr|]. split; [exact Hs|].
  exact (dijkstra_explores_nearer setup_city_map 0 7 r Hg Hr Hs).
Defined.

(** ** The printed summary *)

Lemma route_nodes_known nav s p v W :
  well_formed nav → known nav s → route (graph nav) s p v W → Forall (known nav) p.
Proof.
  intros Hwf Hs. induction 1 as [|p x y w W Hr IH Hroad].
  - by apply Forall_singleton.
  - apply Forall_app. split; [done|]. apply Forall_singleton.
    eapply route_known; [done..|]. by eapply route_road.
Qed.

Lemma lookup_names_Ok nav p :
  Forall (known nav) p →
  ∃ names, lookup_names nav p = Ok names ∧ length names = length p.
Proof.
  induction 1 as [|node p Hnode _ (names & Hnames & Hlen)].
  - by exists [].
  - destruct (lookup_name_known _ _ Hnode) as [name Hname].
    exists (name :: names). cbn [lookup_names]. rewrite Hname, Hnames.
    split; [done|]. cbn [length]. by rewrite Hlen.
Qed.

(** The summary of a result that holds a route between two named
    nodes, and of a failed one. *)
Lemma print_route_summary_found nav src dst r W d :
  well_formed nav → known nav src → known nav dst →
  success r = true → NoDup (path r) → route (graph nav) src (path r) dst W →
  distance r = Fin d →
  ∃ lines, print_route_summary nav r src dst = Ok lines ∧
    length lines = (10 + (if decide (src = dst) then 0 else length (path r)))%nat.
Proof.
  intros Hwf Hsrc Hdst Hs Hnd Hroute Hd.
  destruct (lookup_name_known _ _ Hsrc) as [sn Hsn].
  destruct (lookup_name_known _ _ Hdst) as [en Hen].
  unfold print_route_summary. rewrite Hs. cbn [negb].
  rewrite Hsn, Hen, Hd. cbn [mbind outcome_bind route_time].
  unfold calculate_route_time.
  change (Qeq_bool default_avg_speed_kmh 0) with false.
  cbn [mbind outcome_bind].
  destruct (lookup_names_Ok nav (path r)) as (names & -> & _).
  { by apply (route_nodes_known nav src (path r) dst W). }
  destruct (directions_on_route nav src dst (path r) W) as (lines & -> & Hlen);
    [done..|].
  cbn [mbind outcome_bind]. eexists. split; [reflexivity|].
  rewrite length_app, Hlen. reflexivity.
Qed.

Lemma print_route_summary_failed nav src dst r :
  known nav src → known nav dst → success r = false →
  ∃ line, print_route_summary nav r src dst = Ok [line].
Proof.
  intros Hsrc Hdst Hs.
  destruct (lookup_name_known _ _ Hsrc) as [sn Hsn].
  destruct (lookup_name_known _ _ Hdst) as [en Hen].
  unfold print_route_summary. rewrite Hs. cbn [negb].
  rewrite Hsn, Hen. cbn [mbind outcome_bind]. by eexists.
Qed.

(** X16.  The summary of a result of the engine never fails on a
    well-formed navigator: [print_route_summary] returns, having printed
    one line for a failed search and, for a successful one, ten lines
    followed by one direction per node of the path (none when start and
    destination coincide). *)
Theorem print_route_summary_of_dijkstra nav src dst r :
  well_formed nav → dijkstra nav src dst = Ok r →
  ∃ lines, print_route_summary nav r src dst = Ok lines ∧
    length lines =
      (if success r then 10 + (if decide (src = dst) then 0 else length (path r))
       else 1)%nat.
Proof.
  intros Hwf Hr.
  destruct (dijkstra_Ok_known _ _ _ _ Hr) as [Hsrc Hdst].
  destruct (dijkstra_result _ _ _ _ Hr)
    as [(Hs & Hnd & W & d & Hroute & Hd & _)|(Hs & _)]; rewrite Hs.
  - by apply (print_route_summary_found nav src dst r W d).
  - destruct (print_route_summary_failed nav src dst r) as [line Hline]; [done..|].
    by exists [line].
Qed.

Lemma print_route_summary_of_dijkstra_witness :
  well_formed setup_city_map ∧
  ∃ r, dijkstra setup_city_map 3 8 = Ok r ∧
    ∃ lines, print_route_summary setup_city_map r 3 8 = Ok lines ∧
      length lines =
        (if success r then 10 + (if decide (3 = 8) then 0 else length (path r))
         else 1)%nat.
Proof.
  assert (well_formed setup_city_map) as Hwf by compute_done.
  assert (∃ r, dijkstra setup_city_map 3 8 = Ok r) as [r Hr].
  { eexists. vm_compute. reflexivity. }
  split; [exact Hwf|]. exists r. split; [exact Hr|].
  exact (print_route_summary_of_dijkstra setup_city_map 3 8 r Hwf Hr).
Defined.
